(** * The query cache of pinia-colada: entries, the fetch state machine,
      the key index and its serialization.

    The development follows [query-store.ts]: a query entry is a mutable
    object reached through references (the registry, callers and promise
    handlers all hold the same object), so the cache store is a heap of
    entries; the promise chain built by [refetch] is a record whose token
    plays the part of the identity of the [pendingCall] object; promise
    reactions are jobs of a microtask queue. [Date.now()] is the reading
    [now] that comes with a call or with a job. *)

From Stdlib Require Import ZArith Lia.
From stdpp Require Import base option list strings.

Open Scope Z_scope.

(** ** JavaScript insertion-ordered maps

    [Map<K, V>] keeps one binding per key, in insertion order; [set] on a
    key already present replaces the value where it stands. *)
Module JsMap.

Section Ops.
Context {K V : Type} `{EqDecision K}.

Fixpoint get (k : K) (m : list (K * V)) : option V :=
  match m with
  | [] => None
  | (k', v) :: m' => if decide (k = k') then Some v else get k m'
  end.

Fixpoint set (k : K) (v : V) (m : list (K * V)) : list (K * V) :=
  match m with
  | [] => [(k, v)]
  | (k', v') :: m' =>
      if decide (k = k') then (k, v) :: m' else (k', v') :: set k v m'
  end.

Definition keys (m : list (K * V)) : list K := map fst m.
End Ops.

End JsMap.

(** ** The hierarchical key index *)

(** Key segments after [stringifyFlatObject]. *)
Definition EntryNodeKey := string.

(** Modelled from the spec: the class [TreeMapNode] of [tree-map.ts] is not
  among the sources.  A node owns an optional value and an optional mapping
  from segment to child node (spec, section 3). *)
#[local] Unset Elimination Schemes.
Inductive TreeMapNode (T : Type) : Type :=
| MkNode (value : option T)
       (children : option (list (EntryNodeKey * TreeMapNode T))).
#[local] Set Elimination Schemes.
Arguments MkNode {T} value children.

Module Tree.
Section TreeMap.
Context {T : Type}.

Definition node_value (n : TreeMapNode T) : option T :=
  match n with MkNode v _ => v end.

Definition node_children (n : TreeMapNode T)
  : option (list (EntryNodeKey * TreeMapNode T)) :=
  match n with MkNode _ c => c end.

(** [new TreeMapNode()] *)
Definition emptyNode : TreeMapNode T := MkNode None None.

(** Modelled from the spec: [find(key)] follows each segment and reaches the
    terminal node, or nothing if a segment is missing (section 4.1). *)
Fixpoint find (keys : list EntryNodeKey) (n : TreeMapNode T)
  : option (TreeMapNode T) :=
  match keys with
  | [] => Some n
  | k :: ks =>
      match node_children n with
      | None => None
      | Some cs =>
          match JsMap.get k cs with
          | None => None
          | Some c => find ks c
          end
      end
  end.

(** Modelled from the spec: [get(key)] is the exact-match lookup: the value
    stored at the node reached by following each segment, or absent. *)
Definition get (keys : list EntryNodeKey) (n : TreeMapNode T) : option T :=
  match find keys n with
  | Some m => node_value m
  | None => None
  end.

(** Modelled from the spec: [set(key, value)] creates intermediate nodes as
    needed along the path and overwrites the value at the terminal node. *)
Fixpoint set (keys : list EntryNodeKey) (v : T) (n : TreeMapNode T)
  : TreeMapNode T :=
  match keys with
  | [] => MkNode (Some v) (node_children n)
  | k :: ks =>
      let cs := default [] (node_children n) in
      let child := default emptyNode (JsMap.get k cs) in
      MkNode (node_value n) (Some (JsMap.set k (set ks v child) cs))
  end.

(** Modelled from the spec: iterating a node enumerates the values of its
    subtree depth-first, children in insertion order. *)
Fixpoint values (n : TreeMapNode T) : list T :=
  match n with
  | MkNode v cs =>
      option_list v ++
      match cs with
      | None => []
      | Some l => flat_map (fun kc => match kc with (_, c) => values c end) l
      end
  end.

(** The shape every index built by [set] or by hydration has: the keys of a
    children map are distinct (it is a [Map]), and a children map that exists
    has a child (it is created when the first child is put in). *)
Fixpoint wf (n : TreeMapNode T) : Prop :=
  match n with
  | MkNode _ None => True
  | MkNode _ (Some l) =>
      l <> [] /\ NoDup (JsMap.keys l) /\
      (fix all (l : list (EntryNodeKey * TreeMapNode T)) : Prop :=
         match l with
         | [] => True
         | (_, c) :: l' => wf c /\ all l'
         end) l
  end.
End TreeMap.
End Tree.

(** ** Query entries *)

(** [UseQueryStatus] *)
Inductive UseQueryStatus := StPending | StLoading | StError | StSuccess.

(** The descriptor stored in [entry.pending].  [refreshCall] is the token of
  the promise chain [query().then().catch().finally()]; every descriptor is
  created with a token never used before, so comparing tokens is comparing
  the identity of the descriptor objects. *)
Record PendingCall := { refreshCall : nat; pc_when : Z }.

(** JavaScript truthiness of a reference that is an object or absent
  ([undefined], [null]). *)
Definition truthy {A : Type} (o : option A) : bool :=
  match o with Some _ => true | None => false end.

(** JavaScript [ToBoolean] on the values of a type: [false] on the empty
  string, [0], [NaN] and [false], [true] on every object. *)
Class ToBoolean (T : Type) := toBoolean : T -> bool.

Section QueryStore.
(** Results and errors of queries.  [data] is [TResult | undefined]: [None]
    is [undefined].  [error] is [TError | null]: [None] is [null] (an absent
    or [undefined] argument of [createQueryEntry] becomes [null] by the
    default of the parameter), and a value of [TError] is any other value a
    query rejects with.  It need not be an object: [refresh] leaves [TError]
    open, and where the store tests [entry.error.value] it tests its
    truthiness. *)
Context {TResult TError : Type} `{!ToBoolean TError}.

(** Truthiness of what [entry.error] holds: [null] is falsy, a value of
    [TError] is as [ToBoolean] has it. *)
Definition truthyError (e : option TError) : bool :=
  match e with Some v => toBoolean v | None => false end.

(** [UseQueryOptionsWithDefaults]: what the store reads of it.  [query]
    names the fetch function, an opaque asynchronous operation;
    [initialData] is the result of [options.initialData?.()]. *)
Record Options := {
  opt_key : list EntryNodeKey;
  query : nat;
  staleTime : Z;
  initialData : option TResult;
}.

(** [UseQueryEntry].  [isPending] and [isFetching] are computed from
    [data] and [status]. *)
Record UseQueryEntry := {
  data : option TResult;
  error : option TError;
  status : UseQueryStatus;
  when : Z;
  pending : option PendingCall;
  options : option Options;
}.

Definition isPending (e : UseQueryEntry) : bool := negb (truthy (data e)).

Definition isFetching (e : UseQueryEntry) : bool :=
  match status e with StLoading => true | _ => false end.

(** [createQueryEntry(initialData?, error = null, when = 0)].  The status is
    [error ? 'error' : initialData !== undefined ? 'success' : 'pending']:
    [error] is read for its truthiness, [initialData] is compared with
    [undefined]. *)
Definition createQueryEntry (initial : option TResult) (err : option TError)
    (when_ : option Z) : UseQueryEntry :=
  {| data := initial;
     error := err;
     status := if truthyError err then StError
               else if truthy initial then StSuccess else StPending;
     when := default 0 when_;
     pending := None;
     options := None |}.

(** [_UseQueryEntryNodeValueSerialized]: [[data, error, when?]] *)
Definition _UseQueryEntryNodeValueSerialized : Type :=
  option TResult * option TError * option Z.

Definition queryEntry_toJSON (entry : UseQueryEntry)
  : _UseQueryEntryNodeValueSerialized :=
  (data entry, error entry, Some (when entry)).

(** [createQueryEntry(...value)] *)
Definition createQueryEntry_spread (value : _UseQueryEntryNodeValueSerialized)
  : UseQueryEntry :=
  match value with (d, e, w) => createQueryEntry d e w end.

(** [UseQueryEntryNodeSerialized]: [[key, value, children?]] *)
#[local] Unset Elimination Schemes.
Inductive UseQueryEntryNodeSerialized : Type :=
| SNode (key : EntryNodeKey)
        (value : option _UseQueryEntryNodeValueSerialized)
        (children : option (list UseQueryEntryNodeSerialized)).
#[local] Set Elimination Schemes.

Definition skey (s : UseQueryEntryNodeSerialized) : EntryNodeKey :=
  match s with SNode k _ _ => k end.

(** The serializer only reads the entries, and a hydrated tree owns the
    entries it creates: on this side the tree carries the entry records
    themselves. *)
Fixpoint _serialize (key : EntryNodeKey) (tree : TreeMapNode UseQueryEntry)
  : UseQueryEntryNodeSerialized :=
  match tree with
  | MkNode v cs =>
      SNode key
        (match v with Some e => Some (queryEntry_toJSON e) | None => None end)
        (match cs with
         | Some l =>
             Some (map (fun kc => match kc with (k, c) => _serialize k c end) l)
         | None => None
         end)
  end.

Definition serialize (root : TreeMapNode UseQueryEntry)
  : list UseQueryEntryNodeSerialized :=
  match Tree.node_children root with
  | Some l => map (fun kc => match kc with (k, c) => _serialize k c end) l
  | None => []
  end.

(** [appendToTree(parent, [key, value, children])].  The source puts the new
    node into [parent.children] and then appends the children to it through
    the same reference; here the node is completed first and then put in
    its place, which [Map.set] fixed when the key was inserted. *)
Fixpoint appendToTree (parent : TreeMapNode UseQueryEntry)
    (s : UseQueryEntryNodeSerialized) {struct s} : TreeMapNode UseQueryEntry :=
  match s with
  | SNode key value children =>
      let node :=
        MkNode (match value with
                | Some v => Some (createQueryEntry_spread v)
                | None => None
                end) None in
      let node' :=
        match children with
        | Some l => fold_left (fun n child => appendToTree n child) l node
        | None => node
        end in
      MkNode (Tree.node_value parent)
             (Some (JsMap.set key node' (default [] (Tree.node_children parent))))
  end.

Definition createTreeMap (raw : list UseQueryEntryNodeSerialized)
  : TreeMapNode UseQueryEntry :=
  fold_left appendToTree raw Tree.emptyNode.

(** The node [appendToTree] builds for a serialized node before it puts it
    into the parent. *)
Definition hydrateNode (s : UseQueryEntryNodeSerialized)
  : TreeMapNode UseQueryEntry :=
  match s with
  | SNode _ value children =>
      let node :=
        MkNode (match value with
                | Some v => Some (createQueryEntry_spread v)
                | None => None
                end) None in
      match children with
      | Some l => fold_left appendToTree l node
      | None => node
      end
  end.

(** ** The cache store: heap, promise chains and the microtask queue *)

(** Raw key segments, and [stringifyFlatObject] of [utils.ts], which is not
    among the sources: it is taken as a parameter. *)
Context {UseQueryKey : Type}.
Variable stringifyFlatObject : UseQueryKey -> EntryNodeKey.

(** [process.env.NODE_ENV === 'production'] *)
Variable production : bool.

(** How the promise returned by [options.query()] settles. *)
Inductive Settlement := Resolves (d : TResult) | Rejects (e : TError).

(** The reason a promise is rejected with: the [Error] built by the guard of
    [refresh] / [refetch] (tagged with the function that built it), the
    [TypeError] of reading a property of [undefined], or an error [e] a query
    rejected with. *)
Inductive Exn := ConfigError (fn : string) | TypeError | Raised (e : TError).

(** The rest of an async function of the store after its [await]: both
    [refetch] and [refresh] go on with [return entry.data.value], for the
    entry at address [a], and settle their own promise [p]. *)
Inductive Cont := KRefetch (a p : nat) | KRefresh (a p : nat).

Definition cont_entry (k : Cont) : nat :=
  match k with KRefetch a _ | KRefresh a _ => a end.

Definition cont_call (k : Cont) : nat :=
  match k with KRefetch _ p | KRefresh _ p => p end.

(** The promise returned by one call of [refresh] or [refetch]. *)
Inductive CallState :=
| Awaiting (waiters : list Cont)
| Fulfilled (v : option TResult)
| Rejected (r : Exn).

(** The chain [query().then(..).catch(..).finally(..)] of one [refetch]:
    [Running] while the query is unsettled, [Settling] while the reactions
    run, [Done] once [refreshCall] is fulfilled. *)
Inductive Stage := Running | Settling | Done.

Record Op := {
  op_entry : nat;
  op_stage : Stage;
  op_waiters : list Cont;
}.

(** Promise reactions waiting in the microtask queue. *)
Inductive Job :=
| JHandler (t : nat) (s : Settlement)
| JFinally (t : nat)
| JResume (k : Cont) (thrown : option Exn).

Record World := {
  heap : list UseQueryEntry;
  entryRegistry : TreeMapNode nat;
  ops : list Op;
  calls : list CallState;
  jobs : list Job;
  invocations : list nat;
}.

Definition emptyWorld : World :=
  {| heap := []; entryRegistry := Tree.emptyNode; ops := []; calls := [];
     jobs := []; invocations := [] |}.

(** *** Assignments *)

Definition set_data (d : option TResult) (en : UseQueryEntry) : UseQueryEntry :=
  {| data := d; error := error en; status := status en; when := when en;
     pending := pending en; options := options en |}.

Definition set_error (e : option TError) (en : UseQueryEntry) : UseQueryEntry :=
  {| data := data en; error := e; status := status en; when := when en;
     pending := pending en; options := options en |}.

Definition set_status (s : UseQueryStatus) (en : UseQueryEntry) : UseQueryEntry :=
  {| data := data en; error := error en; status := s; when := when en;
     pending := pending en; options := options en |}.

Definition set_when (t : Z) (en : UseQueryEntry) : UseQueryEntry :=
  {| data := data en; error := error en; status := status en; when := t;
     pending := pending en; options := options en |}.

Definition set_pending (p : option PendingCall) (en : UseQueryEntry)
  : UseQueryEntry :=
  {| data := data en; error := error en; status := status en; when := when en;
     pending := p; options := options en |}.

Definition set_options (o : option Options) (en : UseQueryEntry)
  : UseQueryEntry :=
  {| data := data en; error := error en; status := status en; when := when en;
     pending := pending en; options := o |}.

Definition with_heap (h : list UseQueryEntry) (w : World) : World :=
  {| heap := h; entryRegistry := entryRegistry w; ops := ops w;
     calls := calls w; jobs := jobs w; invocations := invocations w |}.

Definition with_registry (r : TreeMapNode nat) (w : World) : World :=
  {| heap := heap w; entryRegistry := r; ops := ops w;
     calls := calls w; jobs := jobs w; invocations := invocations w |}.

Definition with_ops (o : list Op) (w : World) : World :=
  {| heap := heap w; entryRegistry := entryRegistry w; ops := o;
     calls := calls w; jobs := jobs w; invocations := invocations w |}.

Definition with_calls (c : list CallState) (w : World) : World :=
  {| heap := heap w; entryRegistry := entryRegistry w; ops := ops w;
     calls := c; jobs := jobs w; invocations := invocations w |}.

Definition with_jobs (j : list Job) (w : World) : World :=
  {| heap := heap w; entryRegistry := entryRegistry w; ops := ops w;
     calls := calls w; jobs := j; invocations := invocations w |}.

Definition with_invocations (i : list nat) (w : World) : World :=
  {| heap := heap w; entryRegistry := entryRegistry w; ops := ops w;
     calls := calls w; jobs := jobs w; invocations := i |}.

(** A field assignment through the reference [a]. *)
Definition write (a : nat) (f : UseQueryEntry -> UseQueryEntry) (w : World)
  : World :=
  with_heap (alter f a (heap w)) w.

Definition enqueue (js : list Job) (w : World) : World :=
  with_jobs (jobs w ++ js) w.

Definition push_call (c : CallState) (w : World) : World :=
  with_calls (calls w ++ [c]) w.

(** *** Promises *)

(** [pendingCall === entry.pending], for the descriptor with token [t] and the
    entry at [a]. *)
Definition is_current (t a : nat) (w : World) : bool :=
  match heap w !! a with
  | Some en =>
      match pending en with
      | Some pc => bool_decide (refreshCall pc = t)
      | None => false
      end
  | None => false
  end.

(** [await refreshCall], for the chain with token [t]: the continuation is a
    reaction of [refreshCall], scheduled at once if it is fulfilled already. *)
Definition await (t : nat) (k : Cont) (w : World) : World :=
  match ops w !! t with
  | Some op =>
      match op_stage op with
      | Done => enqueue [JResume k None] w
      | _ =>
          with_ops (<[t := {| op_entry := op_entry op; op_stage := op_stage op;
                              op_waiters := op_waiters op ++ [k] |}]> (ops w)) w
      end
  | None => w
  end.

(** [await] of the promise of the call [q]. *)
Definition await_call (q : nat) (k : Cont) (w : World) : World :=
  match calls w !! q with
  | Some (Awaiting ws) => with_calls (<[q := Awaiting (ws ++ [k])]> (calls w)) w
  | Some (Fulfilled _) => enqueue [JResume k None] w
  | Some (Rejected r) => enqueue [JResume k (Some r)] w
  | None => w
  end.

(** The async function of the call [q] returns or throws: its promise is
    settled and the continuations awaiting it are scheduled. *)
Definition settle_call (q : nat) (c : CallState) (w : World) : World :=
  match calls w !! q with
  | Some (Awaiting ws) =>
      let thrown := match c with Rejected r => Some r | _ => None end in
      enqueue (map (fun k => JResume k thrown) ws)
              (with_calls (<[q := c]> (calls w)) w)
  | _ => w
  end.

(** *** The operations of the store *)

Definition isExpired (now lastRefresh staleTime_ : Z) : bool :=
  bool_decide (now > lastRefresh + staleTime_).

(** The guard at the head of [refresh] and [refetch], and the dereference
    [entry.options!] that follows it. *)
Definition checked_options (fn : string) (en : UseQueryEntry) : Exn + Options :=
  if negb production && negb (truthy (options en)) then inl (ConfigError fn)
  else match options en with
       | Some o => inr o
       | None => inl TypeError
       end.

(** [refetch(entry)], for the entry at [a], called when the clock reads [now].
    Returns the promise of the call. An async function never throws to its
    caller: whatever its body throws rejects the promise it returns. *)
Definition refetch (a : nat) (now : Z) (w : World) : World * nat :=
  let q := length (calls w) in
  match heap w !! a with
  | None => (push_call (Rejected TypeError) w, q)
  | Some en =>
      match checked_options "refetch" en with
      | inl x => (push_call (Rejected x) w, q)
      | inr o =>
          let w := write a (set_status StLoading) w in
          let t := length (ops w) in
          let w := with_invocations (invocations w ++ [query o]) w in
          let w := with_ops (ops w ++ [{| op_entry := a; op_stage := Running;
                                         op_waiters := [] |}]) w in
          let w := write a (set_pending
                              (Some {| refreshCall := t; pc_when := now |})) w in
          (await t (KRefetch a q) (push_call (Awaiting []) w), q)
      end
  end.

(** [refresh(entry)] *)
Definition refresh (a : nat) (now : Z) (w : World) : World * nat :=
  let p := length (calls w) in
  match heap w !! a with
  | None => (push_call (Rejected TypeError) w, p)
  | Some en =>
      match checked_options "refresh" en with
      | inl x => (push_call (Rejected x) w, p)
      | inr o =>
          if truthyError (error en) || isExpired now (when en) (staleTime o) then
            let w := push_call (Awaiting []) w in
            match pending en with
            | Some pc => (await (refreshCall pc) (KRefresh a p) w, p)
            | None =>
                let '(w, q) := refetch a now w in
                (await_call q (KRefresh a p) w, p)
            end
          else (push_call (Fulfilled (data en)) w, p)
      end
  end.

(** [ensureEntry(keyRaw, options)]: returns the entry (its address). *)
Definition ensureEntry (keyRaw : list UseQueryKey) (o : Options) (w : World)
  : World * nat :=
  let key := map stringifyFlatObject keyRaw in
  let '(w, a) :=
    match Tree.get key (entryRegistry w) with
    | Some a => (w, a)
    | None =>
        let a := length (heap w) in
        let w := with_heap (heap w ++ [createQueryEntry (initialData o) None None]) w in
        (with_registry (Tree.set key a (entryRegistry w)) w, a)
    end in
  (write a (fun en => if negb (truthy (options en))
                      then set_options (Some o) en else en) w, a).

(** The body of the loop of [invalidateEntry]. *)
Definition invalidate_one (shouldRefetch : bool) (now : Z) (w : World) (a : nat)
  : World :=
  let w := write a (set_when 0) w in
  if shouldRefetch then
    let w := write a (set_pending None) w in
    fst (refetch a now w)
  else w.

(** [invalidateEntry(key, shouldRefetch = false)] *)
Definition invalidateEntry (key : list UseQueryKey) (shouldRefetch : bool)
    (now : Z) (w : World) : World :=
  match Tree.find (map stringifyFlatObject key) (entryRegistry w) with
  | None => w
  | Some entryNode =>
      fold_left (invalidate_one shouldRefetch now) (Tree.values entryNode) w
  end.

(** The second argument of [setEntryData]: a value, or a function that edits
    the [data] ref. *)
Inductive DataArg :=
| NewData (d : TResult)
| Updater (f : option TResult -> option TResult).

(** [setEntryData(key, data)] *)
Definition setEntryData (key : list UseQueryKey) (d : DataArg) (w : World)
  : World :=
  match Tree.get (map stringifyFlatObject key) (entryRegistry w) with
  | None => w
  | Some a =>
      let w :=
        match d with
        | Updater f => write a (fun en => set_data (f (data en)) en) w
        | NewData v => write a (set_data (Some v)) w
        end in
      write a (set_error None) w
  end.

(** *** Reactions *)

(** The [then] or the [catch] callback of the chain with token [t]. *)
Definition handler (t : nat) (s : Settlement) (w : World) : World :=
  match ops w !! t with
  | None => w
  | Some op =>
      let a := op_entry op in
      let w :=
        if is_current t a w then
          match s with
          | Resolves d =>
              let w := write a (set_error None) w in
              let w := write a (set_data (Some d)) w in
              write a (set_status StSuccess) w
          | Rejects e =>
              let w := write a (set_error (Some e)) w in
              write a (set_status StError) w
          end
        else w in
      enqueue [JFinally t] w
  end.

(** The [finally] callback; after it [refreshCall] is fulfilled and the
    functions that await it are scheduled. *)
Definition finally (t : nat) (now : Z) (w : World) : World :=
  match ops w !! t with
  | None => w
  | Some op =>
      let a := op_entry op in
      let w :=
        if is_current t a w then
          let w := write a (set_pending None) w in
          write a (set_when now) w
        else w in
      enqueue (map (fun k => JResume k None) (op_waiters op))
        (with_ops (<[t := {| op_entry := a; op_stage := Done;
                             op_waiters := [] |}]> (ops w)) w)
  end.

(** An async function goes on after its [await]: it throws what the awaited
    promise was rejected with, or returns [entry.data.value]. *)
Definition resume (k : Cont) (thrown : option Exn) (w : World) : World :=
  match thrown with
  | Some r => settle_call (cont_call k) (Rejected r) w
  | None =>
      match heap w !! cont_entry k with
      | Some en => settle_call (cont_call k) (Fulfilled (data en)) w
      | None => w
      end
  end.

Definition run_job (j : Job) (now : Z) (w : World) : World :=
  match j with
  | JHandler t s => handler t s w
  | JFinally t => finally t now w
  | JResume k thrown => resume k thrown w
  end.

(** *** Traces *)

(** What can happen to the store: a call from outside, the settlement of the
    promise a query returned, or one job of the microtask queue. Jobs may be
    taken in any order, and calls may come between any two of them: every
    schedule of the event loop is among the traces. *)
Inductive Event :=
| CallEnsureEntry (keyRaw : list UseQueryKey) (o : Options)
| CallInvalidateEntry (key : list UseQueryKey) (shouldRefetch : bool) (now : Z)
| CallSetEntryData (key : list UseQueryKey) (d : DataArg)
| CallRefetch (a : nat) (now : Z)
| CallRefresh (a : nat) (now : Z)
| QuerySettles (t : nat) (s : Settlement)
| RunJob (i : nat) (now : Z).

Definition settles (t : nat) (s : Settlement) (w : World) : World :=
  match ops w !! t with
  | Some op =>
      match op_stage op with
      | Running =>
          enqueue [JHandler t s]
            (with_ops (<[t := {| op_entry := op_entry op; op_stage := Settling;
                                 op_waiters := op_waiters op |}]> (ops w)) w)
      | _ => w
      end
  | None => w
  end.

Definition step (ev : Event) (w : World) : World :=
  match ev with
  | CallEnsureEntry keyRaw o => fst (ensureEntry keyRaw o w)
  | CallInvalidateEntry key shouldRefetch now =>
      invalidateEntry key shouldRefetch now w
  | CallSetEntryData key d => setEntryData key d w
  | CallRefetch a now => fst (refetch a now w)
  | CallRefresh a now => fst (refresh a now w)
  | QuerySettles t s => settles t s w
  | RunJob i now =>
      match jobs w !! i with
      | Some j => run_job j now (with_jobs (delete i (jobs w)) w)
      | None => w
      end
  end.

Definition run (evs : list Event) (w : World) : World :=
  fold_left (fun w ev => step ev w) evs w.


(** * Properties *)

(** ** Maps and the key index *)

Section JsMapFacts.
Context {K V : Type} `{EqDecision K}.
Implicit Types (k : K) (v : V) (m : list (K * V)).

Lemma JsMap_get_set_eq k v m : JsMap.get k (JsMap.set k v m) = Some v.
Proof.
  induction m as [|[k' v'] m IH]; cbn.
  - case_decide; congruence.
  - destruct (decide (k = k')) as [->|Hne]; cbn; case_decide; congruence.
Qed.

Lemma JsMap_get_set_ne k k0 v m :
  k0 <> k -> JsMap.get k0 (JsMap.set k v m) = JsMap.get k0 m.
Proof.
  intros Hne. induction m as [|[k' v'] m IH]; cbn.
  - case_decide; congruence.
  - destruct (decide (k = k')) as [->|Hne']; cbn;
      repeat case_decide; congruence || done.
Qed.

Lemma JsMap_set_fresh k v m :
  k ∉ JsMap.keys m -> JsMap.set k v m = m ++ [(k, v)].
Proof.
  induction m as [|[k' v'] m IH]; cbn; [done |].
  intros Hnin. apply not_elem_of_cons in Hnin as [Hne Hnin].
  case_decide; [congruence |]. by rewrite IH.
Qed.

Lemma JsMap_keys_set_in k v m :
  k ∈ JsMap.keys m -> JsMap.keys (JsMap.set k v m) = JsMap.keys m.
Proof.
  unfold JsMap.keys.
  induction m as [|[k' v'] m IH]; intros Hin.
  - by apply elem_of_nil in Hin.
  - cbn [JsMap.set]. destruct (decide (k = k')) as [->|Hne]; [done |].
    cbn [map fst]. f_equal. apply IH.
    cbn [map fst] in Hin. apply elem_of_cons in Hin as [?|?]; done.
Qed.

Lemma JsMap_keys_set_NoDup k v m :
  NoDup (JsMap.keys m) -> NoDup (JsMap.keys (JsMap.set k v m)).
Proof.
  intros Hnd. destruct (decide (k ∈ JsMap.keys m)) as [Hin|Hnin].
  - by rewrite JsMap_keys_set_in.
  - rewrite JsMap_set_fresh by done. unfold JsMap.keys. rewrite map_app.
    apply NoDup_app. split_and!; [done | | apply NoDup_singleton].
    intros x Hx Hx'. apply list_elem_of_singleton in Hx'. by subst.
Qed.

Lemma JsMap_get_elem k v m : JsMap.get k m = Some v -> (k, v) ∈ m.
Proof.
  induction m as [|[k' v'] m IH]; cbn; [done |].
  destruct (decide (k = k')) as [->|Hne].
  - intros [= ->]. apply elem_of_cons. by left.
  - intros Hg. apply elem_of_cons. right. by apply IH.
Qed.
End JsMapFacts.

(** Induction on a tree, with the hypothesis for every child. *)
Lemma TreeMapNode_ind {T : Type} (P : TreeMapNode T -> Prop) :
  (forall v, P (MkNode v None)) ->
  (forall v l, Forall (fun kc => P kc.2) l -> P (MkNode v (Some l))) ->
  forall n, P n.
Proof.
  intros Hleaf Hnode. fix IH 1. intros [v [l|]]; [apply Hnode | apply Hleaf].
  induction l as [|[k c] l IHl]; constructor; [apply IH | apply IHl].
Qed.

Lemma wf_children {T : Type} (v : option T) l :
  Tree.wf (MkNode v (Some l)) <->
  l <> [] /\ NoDup (JsMap.keys l) /\ Forall (fun kc => Tree.wf kc.2) l.
Proof.
  simpl. do 2 (apply and_iff_compat_l).
  induction l as [|[k c] l IH]; simpl.
  - split; [constructor | done].
  - rewrite Forall_cons, IH. done.
Qed.

(** ** Serialization and hydration *)

Local Abbreviation ser :=
  (fun kc : EntryNodeKey * TreeMapNode UseQueryEntry =>
     match kc with (k, c) => _serialize k c end).

Local Abbreviation hyd :=
  (fun s : UseQueryEntryNodeSerialized => (skey s, hydrateNode s)).

Lemma queryEntry_toJSON_createQueryEntry (e : UseQueryEntry) :
  queryEntry_toJSON (createQueryEntry_spread (queryEntry_toJSON e)) =
  queryEntry_toJSON e.
Proof. reflexivity. Qed.

Lemma appendToTree_unfold parent s :
  appendToTree parent s =
  MkNode (Tree.node_value parent)
    (Some (JsMap.set (skey s) (hydrateNode s)
             (default [] (Tree.node_children parent)))).
Proof. by destruct s. Qed.

Lemma fold_appendToTree_Some ss : forall v cs,
  NoDup (map skey ss) ->
  (forall s, s ∈ ss -> skey s ∉ JsMap.keys cs) ->
  fold_left appendToTree ss (MkNode v (Some cs)) = MkNode v (Some (cs ++ map hyd ss)).
Proof.
  induction ss as [|s ss IH]; intros v cs Hnd Hfresh.
  - cbn. by rewrite app_nil_r.
  - cbn [fold_left map]. rewrite appendToTree_unfold. cbn [Tree.node_value Tree.node_children default].
    apply NoDup_cons in Hnd as [Hs Hnd].
    rewrite JsMap_set_fresh by (apply Hfresh, elem_of_cons; by left).
    rewrite IH; [by rewrite <- app_assoc | done |].
    intros s' Hs'. unfold JsMap.keys. rewrite map_app. cbn.
    intros Hin. apply elem_of_app in Hin as [Hin|Hin].
    + eapply Hfresh; [| exact Hin]. apply elem_of_cons. by right.
    + apply list_elem_of_singleton in Hin. apply Hs. rewrite <- Hin.
      by apply list_elem_of_fmap_2.
Qed.

Lemma fold_appendToTree_None ss v :
  NoDup (map skey ss) -> ss <> [] ->
  fold_left appendToTree ss (MkNode v None) = MkNode v (Some (map hyd ss)).
Proof.
  destruct ss as [|s ss]; [done |]. intros Hnd _.
  cbn [fold_left map]. rewrite appendToTree_unfold. cbn.
  apply NoDup_cons in Hnd as [Hs Hnd].
  rewrite fold_appendToTree_Some; [done | done |].
  intros s' Hs' Hin. cbn in Hin. apply list_elem_of_singleton in Hin.
  apply Hs. rewrite <- Hin. by apply list_elem_of_fmap_2.
Qed.

Lemma skey__serialize k c : skey (_serialize k c) = k.
Proof. by destruct c. Qed.

Lemma skey_serialize l : map skey (map ser l) = JsMap.keys l.
Proof.
  unfold JsMap.keys. rewrite map_map. apply map_ext.
  intros [k [v cs]]. reflexivity.
Qed.

Lemma serialize_hydrate_children l :
  Forall (fun kc => forall k, _serialize k (hydrateNode (_serialize k kc.2))
                              = _serialize k kc.2) l ->
  map ser (map hyd (map ser l)) = map ser l.
Proof.
  intros Hall. rewrite !map_map. apply map_ext_Forall.
  eapply Forall_impl; [exact Hall |].
  intros [k c] Hkc. cbv beta iota. rewrite skey__serialize. apply Hkc.
Qed.

Lemma serialize_hydrateNode n :
  Tree.wf n ->
  forall k, _serialize k (hydrateNode (_serialize k n)) = _serialize k n.
Proof.
  induction n as [v|v l IH] using TreeMapNode_ind; intros Hwf k.
  - by destruct v.
  - apply wf_children in Hwf as (Hne & Hnd & Hwf).
    cbn [_serialize hydrateNode].
    rewrite fold_appendToTree_None;
      [| by rewrite skey_serialize | by destruct l].
    cbn [_serialize]. rewrite serialize_hydrate_children.
    + by destruct v.
    + rewrite Forall_forall in *. intros kc Hkc. apply IH; [done |]. by apply Hwf.
Qed.

(** C6. Serializing an index, hydrating the result into a fresh index and
    serializing again gives the first output again.  Neither [serialize] nor
    [createTreeMap] reads the clock, so the instants of the two
    serializations and of the hydration have no part in it. *)
Theorem serialize_createTreeMap_serialize (root : TreeMapNode UseQueryEntry) :
  Tree.wf root ->
  serialize (createTreeMap (serialize root)) = serialize root.
Proof.
  destruct root as [v [l|]]; intros Hwf; [| reflexivity].
  apply wf_children in Hwf as (Hne & Hnd & Hwf).
  unfold serialize at 2; cbn [Tree.node_children].
  unfold createTreeMap, Tree.emptyNode.
  rewrite fold_appendToTree_None;
    [| by rewrite skey_serialize | by destruct l].
  unfold serialize; cbn [Tree.node_children].
  apply serialize_hydrate_children.
  eapply Forall_impl; [exact Hwf |].
  intros kc Hkc k. by apply serialize_hydrateNode.
Qed.

(** C2, as the code has it. The third component of a serialized entry is
    [entry.when] itself, hydration stores that component as [when], and
    [data] and [error] cross as they are - also through [serialize] and
    [createTreeMap], for an entry at any key: the age [t2 - when] read on the
    receiving clock at [t2] is the age [t1 - when] the entry had on the
    serializing clock at [t1] plus the distance [t2 - t1] of the readings. *)
Theorem queryEntry_toJSON_keeps_when
    (entry : UseQueryEntry) (k : EntryNodeKey) (t1 t2 : Z) :
  let value := queryEntry_toJSON entry in
  let hydrated := createQueryEntry_spread value in
  value.2 = Some (when entry) /\
  Tree.get [k] (createTreeMap (serialize (Tree.set [k] entry Tree.emptyNode)))
    = Some hydrated /\
  when hydrated = when entry /\
  data hydrated = data entry /\
  error hydrated = error entry /\
  t2 - when hydrated = (t1 - when entry) + (t2 - t1).
Proof.
  cbn zeta. split_and!; try reflexivity.
  - unfold Tree.get. cbn. by rewrite decide_True.
  - cbn. lia.
Qed.

(** *** Every index the code builds is well formed *)

Lemma JsMap_set_elem {V : Type} (k : EntryNodeKey) (v : V) m kc :
  kc ∈ JsMap.set k v m -> kc = (k, v) \/ kc ∈ m.
Proof.
  induction m as [|[k' v'] m IH]; cbn [JsMap.set].
  - intros Hin. apply list_elem_of_singleton in Hin. by left.
  - destruct (decide (k = k')) as [->|Hne]; intros Hin;
      apply elem_of_cons in Hin as [->|Hin].
    + by left.
    + right. apply elem_of_cons. by right.
    + right. apply elem_of_cons. by left.
    + destruct (IH Hin) as [->|Hin']; [by left |].
      right. apply elem_of_cons. by right.
Qed.

Lemma JsMap_set_nonempty {V : Type} (k : EntryNodeKey) (v : V) m :
  JsMap.set k v m <> [].
Proof. destruct m as [|[k' v'] m]; cbn; [done |]. by case_decide. Qed.

Lemma wf_put {T : Type} (n c : TreeMapNode T) (v : option T) k :
  Tree.wf n -> Tree.wf c ->
  Tree.wf (MkNode v (Some (JsMap.set k c (default [] (Tree.node_children n))))).
Proof.
  intros Hn Hc. apply wf_children. split_and!.
  - apply JsMap_set_nonempty.
  - apply JsMap_keys_set_NoDup. destruct n as [? [l|]]; cbn.
    + by apply wf_children in Hn as (_ & Hnd & _).
    + apply NoDup_nil_2.
  - apply Forall_forall. intros kc Hin.
    apply JsMap_set_elem in Hin as [->|Hin]; [done |].
    destruct n as [? [l|]]; cbn in Hin.
    + apply wf_children in Hn as (_ & _ & Hall).
      rewrite Forall_forall in Hall. by apply Hall.
    + by apply elem_of_nil in Hin.
Qed.

Lemma wf_emptyNode {T : Type} : Tree.wf (@Tree.emptyNode T).
Proof. exact I. Qed.

Lemma wf_set {T : Type} keys (v : T) : forall n,
  Tree.wf n -> Tree.wf (Tree.set keys v n).
Proof.
  induction keys as [|k ks IH]; intros n Hn.
  - by destruct n.
  - cbn [Tree.set]. apply wf_put; [done |]. apply IH.
    destruct (JsMap.get k (default [] (Tree.node_children n))) as [c|] eqn:Hg;
      [| exact I].
    cbn. apply JsMap_get_elem in Hg.
    destruct n as [? [l|]]; cbn in Hg; [| by apply elem_of_nil in Hg].
    apply wf_children in Hn as (_ & _ & Hall).
    rewrite Forall_forall in Hall. by apply (Hall _ Hg).
Qed.

Lemma SNode_ind (P : UseQueryEntryNodeSerialized -> Prop) :
  (forall k v, P (SNode k v None)) ->
  (forall k v l, Forall P l -> P (SNode k v (Some l))) ->
  forall s, P s.
Proof.
  intros Hleaf Hnode. fix IH 1. intros [k v [l|]]; [apply Hnode | apply Hleaf].
  induction l as [|c l IHl]; constructor; [apply IH | apply IHl].
Qed.

Lemma wf_fold_appendToTree ss : forall n,
  Forall (fun s => Tree.wf (hydrateNode s)) ss ->
  Tree.wf n -> Tree.wf (fold_left appendToTree ss n).
Proof.
  induction ss as [|s ss IH]; intros n Hall Hn; [done |].
  apply Forall_cons in Hall as [Hs Hall]. cbn [fold_left].
  apply IH; [done |]. rewrite appendToTree_unfold. by apply wf_put.
Qed.

Lemma wf_hydrateNode s : Tree.wf (hydrateNode s).
Proof.
  induction s as [k v|k v l IH] using SNode_ind; [exact I |].
  cbn [hydrateNode]. apply wf_fold_appendToTree; [done | exact I].
Qed.

Lemma wf_createTreeMap raw : Tree.wf (createTreeMap raw).
Proof.
  apply wf_fold_appendToTree; [| exact I].
  apply Forall_forall. intros s _. apply wf_hydrateNode.
Qed.

(** ** The store: what no step undoes *)

(** The token of the descriptor in [entry.pending], for the entry at [a]. *)
Definition pending_token (w : World) (a : nat) : option nat :=
  match heap w !! a with
  | Some en =>
      match pending en with
      | Some pc => Some (refreshCall pc)
      | None => None
      end
  | None => None
  end.

(** [w'] comes after [w]: promise chains are only added and keep their
    entry, and a descriptor that has come into [entry.pending] since [w]
    carries a token that did not exist in [w]. *)
Definition extends (w w' : World) : Prop :=
  (length (ops w) <= length (ops w'))%nat /\
  (forall t op, ops w !! t = Some op ->
     exists op', ops w' !! t = Some op' /\ op_entry op' = op_entry op) /\
  (forall a, pending_token w' a = pending_token w a \/
             pending_token w' a = None \/
             exists t, pending_token w' a = Some t /\ (length (ops w) <= t)%nat).

Lemma is_current_token t a w :
  is_current t a w = true <-> pending_token w a = Some t.
Proof.
  unfold is_current, pending_token.
  destruct (heap w !! a) as [en|]; [| done].
  destruct (pending en) as [pc|]; [| done].
  rewrite bool_decide_eq_true. split; congruence.
Qed.

Lemma extends_refl w : extends w w.
Proof. split_and!; [lia | eauto | by left]. Qed.

Lemma extends_trans w1 w2 w3 : extends w1 w2 -> extends w2 w3 -> extends w1 w3.
Proof.
  intros (Hl1 & Ho1 & Hp1) (Hl2 & Ho2 & Hp2). split_and!.
  - lia.
  - intros t op Ht. destruct (Ho1 _ _ Ht) as (op' & Ht' & He).
    destruct (Ho2 _ _ Ht') as (op'' & Ht'' & He').
    exists op''. split; [done | congruence].
  - intros a. destruct (Hp2 a) as [->|[->|(t & -> & Hle)]].
    + apply Hp1.
    + right. by left.
    + right. right. exists t. split; [done | lia].
Qed.

(** [extends] looks at the heap and at the chains only. *)
Lemma extends_same w w1 w2 :
  heap w2 = heap w1 -> ops w2 = ops w1 -> extends w w1 -> extends w w2.
Proof.
  unfold extends, pending_token. intros -> ->. done.
Qed.

Lemma pending_token_write a f w a' :
  pending_token (write a f w) a' =
  if decide (a = a') then
    match heap w !! a with
    | Some en =>
        match pending (f en) with
        | Some pc => Some (refreshCall pc)
        | None => None
        end
    | None => None
    end
  else pending_token w a'.
Proof.
  unfold pending_token, write. cbn [heap with_heap].
  rewrite list_lookup_alter. case_decide as Heq; [| done].
  subst a'. by destruct (heap w !! a).
Qed.

Lemma extends_write_keep a f w :
  (forall en, pending (f en) = pending en) -> extends w (write a f w).
Proof.
  intros Hf. split_and!; [done | eauto |].
  intros a'. left. rewrite pending_token_write.
  case_decide as Heq; [| done]. subst a'.
  unfold pending_token. destruct (heap w !! a); [| done]. by rewrite Hf.
Qed.

Lemma extends_write_clear a f w :
  (forall en, pending (f en) = None) -> extends w (write a f w).
Proof.
  intros Hf. split_and!; [done | eauto |].
  intros a'. rewrite pending_token_write.
  case_decide as Heq; [| by left]. subst a'.
  destruct (heap w !! a) as [en|] eqn:Ha.
  - rewrite Hf. right. by left.
  - left. unfold pending_token. by rewrite Ha.
Qed.

Lemma extends_insert_op t op' w :
  (forall op, ops w !! t = Some op -> op_entry op' = op_entry op) ->
  extends w (with_ops (<[t := op']> (ops w)) w).
Proof.
  intros Hop. split_and!.
  - cbn. by rewrite length_insert.
  - intros t0 op Ht0. cbn. rewrite list_lookup_insert.
    case_decide as Heq; [| eauto]. destruct Heq as [-> _].
    exists op'. split; [done | by apply Hop].
  - by left.
Qed.

Lemma extends_enqueue js w : extends w (enqueue js w).
Proof. apply (extends_same w w); [done | done | apply extends_refl]. Qed.

Lemma extends_push_call c w : extends w (push_call c w).
Proof. apply (extends_same w w); [done | done | apply extends_refl]. Qed.

Lemma extends_await t k w : extends w (await t k w).
Proof.
  unfold await. destruct (ops w !! t) as [op|] eqn:Ht; [| apply extends_refl].
  destruct (op_stage op); try apply extends_enqueue;
    apply extends_insert_op; intros op0 Ht0; cbn; congruence.
Qed.

Lemma extends_await_call q k w : extends w (await_call q k w).
Proof.
  unfold await_call. destruct (calls w !! q) as [[ws|v|r]|];
    try apply extends_enqueue; try apply extends_refl.
  apply (extends_same w w); [done | done | apply extends_refl].
Qed.

Lemma extends_settle_call q c w : extends w (settle_call q c w).
Proof.
  unfold settle_call. destruct (calls w !! q) as [[ws|v|r]|];
    try apply extends_refl.
  apply (extends_same w w); [done | done | apply extends_refl].
Qed.

(** [refetch] past its guard: the assignments before the [await]. *)
Lemma extends_new_pending a o t now w :
  t = length (ops w) ->
  extends w
    (write a (set_pending (Some {| refreshCall := t; pc_when := now |}))
       (with_ops (ops w ++ [{| op_entry := a; op_stage := Running;
                               op_waiters := [] |}])
          (with_invocations (invocations w ++ [query o])
             (write a (set_status StLoading) w)))).
Proof.
  intros ->. split_and!.
  - cbn. rewrite length_app. lia.
  - intros t op Ht. exists op. split; [| done]. cbn.
    by apply lookup_app_l_Some.
  - intros a'. rewrite pending_token_write. cbn [heap with_ops with_invocations].
    case_decide as Heq.
    + subst a'. unfold write; cbn [heap with_heap].
      rewrite list_lookup_alter_eq.
      destruct (heap w !! a) as [en|] eqn:Ha; cbn.
      * right. right. eexists. split; [done | lia].
      * left. unfold pending_token. by rewrite Ha.
    + left.
      change (pending_token (write a (set_status StLoading) w) a'
              = pending_token w a').
      rewrite pending_token_write. by rewrite decide_False.
Qed.

Lemma extends_refetch a now w : extends w (refetch a now w).1.
Proof.
  unfold refetch. destruct (heap w !! a) as [en|]; [| apply extends_push_call].
  destruct (checked_options "refetch" en) as [x|o]; [apply extends_push_call |].
  cbn [fst]. eapply extends_trans; [| apply extends_await].
  eapply extends_trans; [| apply extends_push_call].
  exact (extends_new_pending a o _ now w eq_refl).
Qed.

Lemma extends_refresh a now w : extends w (refresh a now w).1.
Proof.
  unfold refresh. destruct (heap w !! a) as [en|]; [| apply extends_push_call].
  destruct (checked_options "refresh" en) as [x|o]; [apply extends_push_call |].
  destruct (truthyError (error en) || isExpired now (when en) (staleTime o));
    [| apply extends_push_call].
  destruct (pending en) as [pc|].
  - cbn [fst]. eapply extends_trans; [apply extends_push_call | apply extends_await].
  - destruct (refetch a now (push_call (Awaiting []) w)) as [w1 q] eqn:Hr.
    cbn [fst]. eapply extends_trans; [| apply extends_await_call].
    eapply extends_trans; [apply extends_push_call |].
    pose proof (extends_refetch a now (push_call (Awaiting []) w)) as He.
    by rewrite Hr in He.
Qed.

Lemma extends_alloc en r w :
  pending en = None ->
  extends w (with_registry r (with_heap (heap w ++ [en]) w)).
Proof.
  intros Hen. split_and!; [done | eauto |].
  intros a. unfold pending_token. cbn.
  destruct (heap w !! a) as [en0|] eqn:Ha.
  - left. by rewrite (lookup_app_l_Some _ _ _ _ Ha).
  - right. left. destruct (decide (a = length (heap w))) as [->|Hne].
    + rewrite lookup_app_r by lia. rewrite Nat.sub_diag. cbn. by rewrite Hen.
    + apply lookup_ge_None in Ha. rewrite lookup_ge_None_2; [done |].
      rewrite length_app. cbn. lia.
Qed.

Lemma extends_ensureEntry keyRaw o w : extends w (ensureEntry keyRaw o w).1.
Proof.
  unfold ensureEntry.
  destruct (Tree.get (map stringifyFlatObject keyRaw) (entryRegistry w)) as [a|];
    cbn [fst].
  - apply extends_write_keep. intros en. by destruct (truthy (options en)).
  - eapply extends_trans;
      [| apply extends_write_keep; intros en; by destruct (truthy (options en))].
    by apply extends_alloc.
Qed.

Lemma extends_invalidate_one shouldRefetch now w a :
  extends w (invalidate_one shouldRefetch now w a).
Proof.
  unfold invalidate_one. destruct shouldRefetch.
  - eapply extends_trans; [| apply extends_refetch].
    eapply extends_trans; [| by apply extends_write_clear].
    by apply extends_write_keep.
  - by apply extends_write_keep.
Qed.

Lemma extends_fold_invalidate shouldRefetch now l : forall w,
  extends w (fold_left (invalidate_one shouldRefetch now) l w).
Proof.
  induction l as [|a l IH]; intros w; [apply extends_refl |].
  cbn [fold_left]. eapply extends_trans; [| apply IH].
  apply extends_invalidate_one.
Qed.

Lemma extends_invalidateEntry key shouldRefetch now w :
  extends w (invalidateEntry key shouldRefetch now w).
Proof.
  unfold invalidateEntry.
  destruct (Tree.find _ _); [apply extends_fold_invalidate | apply extends_refl].
Qed.

Lemma extends_setEntryData key d w : extends w (setEntryData key d w).
Proof.
  unfold setEntryData. destruct (Tree.get _ _); [| apply extends_refl].
  eapply extends_trans; [| by apply extends_write_keep].
  destruct d; by apply extends_write_keep.
Qed.

Lemma extends_handler t s w : extends w (handler t s w).
Proof.
  unfold handler. destruct (ops w !! t) as [op|]; [| apply extends_refl].
  eapply extends_trans; [| apply extends_enqueue].
  destruct (is_current t (op_entry op) w); [| apply extends_refl].
  destruct s.
  - do 2 (eapply extends_trans; [| by apply extends_write_keep]).
    by apply extends_write_keep.
  - eapply extends_trans; [| by apply extends_write_keep].
    by apply extends_write_keep.
Qed.

Lemma extends_finally t now w : extends w (finally t now w).
Proof.
  unfold finally. destruct (ops w !! t) as [op|] eqn:Ht; [| apply extends_refl].
  eapply extends_trans; [| apply extends_enqueue].
  eapply extends_trans; [| apply extends_insert_op].
  - destruct (is_current t (op_entry op) w); [| apply extends_refl].
    eapply extends_trans; [| by apply extends_write_keep].
    by apply extends_write_clear.
  - intros op0. destruct (is_current t (op_entry op) w); cbn; congruence.
Qed.

Lemma extends_resume k thrown w : extends w (resume k thrown w).
Proof.
  unfold resume. destruct thrown; [apply extends_settle_call |].
  destruct (heap w !! cont_entry k); [apply extends_settle_call | apply extends_refl].
Qed.

Lemma extends_settles t s w : extends w (settles t s w).
Proof.
  unfold settles. destruct (ops w !! t) as [op|] eqn:Ht; [| apply extends_refl].
  destruct (op_stage op); try apply extends_refl.
  eapply extends_trans; [| apply extends_enqueue].
  apply extends_insert_op. cbn. congruence.
Qed.

Lemma extends_step ev w : extends w (step ev w).
Proof.
  destruct ev; cbn [step].
  - apply extends_ensureEntry.
  - apply extends_invalidateEntry.
  - apply extends_setEntryData.
  - apply extends_refetch.
  - apply extends_refresh.
  - apply extends_settles.
  - destruct (jobs w !! i) as [j|]; [| apply extends_refl].
    apply (extends_trans _ (with_jobs (delete i (jobs w)) w));
      [apply (extends_same w w); [done | done | apply extends_refl] |].
    destruct j; cbn [run_job].
    + apply extends_handler.
    + apply extends_finally.
    + apply extends_resume.
Qed.

Lemma extends_run evs : forall w, extends w (run evs w).
Proof.
  induction evs as [|ev evs IH]; intros w; [apply extends_refl |].
  cbn [run fold_left]. eapply extends_trans; [apply extends_step | apply IH].
Qed.

(** ** No promise is rejected with the error of a query *)

Definition quiet_call (c : CallState) : Prop :=
  match c with Rejected (Raised _) => False | _ => True end.

Definition quiet_job (j : Job) : Prop :=
  match j with JResume _ (Some (Raised _)) => False | _ => True end.

(** No promise of a call is rejected with the error of a query, and no
    continuation is about to throw one. *)
Definition Quiet (w : World) : Prop :=
  Forall quiet_call (calls w) /\ Forall quiet_job (jobs w).

Lemma Quiet_emptyWorld : Quiet emptyWorld.
Proof. split; constructor. Qed.

Lemma Quiet_same w w' :
  calls w' = calls w -> jobs w' = jobs w -> Quiet w -> Quiet w'.
Proof. unfold Quiet. by intros -> ->. Qed.

Lemma Quiet_write a f w : Quiet w -> Quiet (write a f w).
Proof. by apply Quiet_same. Qed.

Lemma Quiet_enqueue js w : Forall quiet_job js -> Quiet w -> Quiet (enqueue js w).
Proof. intros Hjs [Hc Hj]. split; [done |]. cbn. by apply Forall_app. Qed.

Lemma Quiet_push_call c w : quiet_call c -> Quiet w -> Quiet (push_call c w).
Proof.
  intros Hc [Hcs Hj]. split; [| done]. cbn. apply Forall_app. split; [done |].
  by constructor.
Qed.

Lemma Quiet_await t k w : Quiet w -> Quiet (await t k w).
Proof.
  intros Hq. unfold await. destruct (ops w !! t) as [op|]; [| done].
  destruct (op_stage op); try by apply (Quiet_same w).
  apply Quiet_enqueue; [| done]. by repeat constructor.
Qed.

Lemma Quiet_await_call q k w : Quiet w -> Quiet (await_call q k w).
Proof.
  intros Hq. unfold await_call.
  destruct (calls w !! q) as [[ws|v|r]|] eqn:Hc; [| | | done].
  - destruct Hq as [Hcs Hj]. split; [| done]. cbn. by apply Forall_insert.
  - apply Quiet_enqueue; [| done]. by repeat constructor.
  - apply Quiet_enqueue; [| done]. repeat constructor.
    destruct Hq as [Hcs _]. rewrite Forall_lookup in Hcs.
    specialize (Hcs _ _ Hc). by destruct r.
Qed.

Lemma Quiet_settle_call q c w : quiet_call c -> Quiet w -> Quiet (settle_call q c w).
Proof.
  intros Hc Hq. unfold settle_call.
  destruct (calls w !! q) as [[ws|v|r]|]; try done.
  apply Quiet_enqueue.
  - apply Forall_fmap, Forall_true. intros k. cbn. by destruct c as [?|?|[]].
  - destruct Hq as [Hcs Hj]. split; [| done]. cbn. by apply Forall_insert.
Qed.

Lemma Quiet_refetch a now w : Quiet w -> Quiet (refetch a now w).1.
Proof.
  intros Hq. unfold refetch.
  destruct (heap w !! a) as [en|]; [| by apply Quiet_push_call].
  unfold checked_options.
  destruct (negb production && negb (truthy (options en)));
    [by apply Quiet_push_call |].
  destruct (options en) as [o|]; [| by apply Quiet_push_call].
  cbn [fst]. apply Quiet_await, Quiet_push_call; [done |].
  by apply (Quiet_same w).
Qed.

Lemma Quiet_refresh a now w : Quiet w -> Quiet (refresh a now w).1.
Proof.
  intros Hq. unfold refresh.
  destruct (heap w !! a) as [en|]; [| by apply Quiet_push_call].
  unfold checked_options.
  destruct (negb production && negb (truthy (options en)));
    [by apply Quiet_push_call |].
  destruct (options en) as [o|]; [| by apply Quiet_push_call].
  destruct (truthyError (error en) || isExpired now (when en) (staleTime o));
    [| by apply Quiet_push_call].
  destruct (pending en) as [pc|].
  - cbn [fst]. by apply Quiet_await, Quiet_push_call.
  - destruct (refetch a now (push_call (Awaiting []) w)) as [w1 q] eqn:Hr.
    cbn [fst]. apply Quiet_await_call.
    pose proof (Quiet_refetch a now (push_call (Awaiting []) w)) as Hq'.
    rewrite Hr in Hq'. apply Hq'. by apply Quiet_push_call.
Qed.

Lemma Quiet_fold_invalidate shouldRefetch now l : forall w,
  Quiet w -> Quiet (fold_left (invalidate_one shouldRefetch now) l w).
Proof.
  induction l as [|a l IH]; intros w Hq; [done |].
  cbn [fold_left]. apply IH. unfold invalidate_one.
  destruct shouldRefetch; [| by apply Quiet_write].
  by apply Quiet_refetch, Quiet_write, Quiet_write.
Qed.

Lemma Quiet_run_job j now w : quiet_job j -> Quiet w -> Quiet (run_job j now w).
Proof.
  intros Hj Hq. destruct j as [t s|t|k thrown]; cbn [run_job].
  - unfold handler. destruct (ops w !! t) as [op|]; [| done].
    apply Quiet_enqueue; [by repeat constructor |].
    destruct (is_current t (op_entry op) w); [| done].
    destruct s; by repeat apply Quiet_write.
  - unfold finally. destruct (ops w !! t) as [op|]; [| done].
    apply Quiet_enqueue; [by apply Forall_fmap, Forall_true |].
    apply (Quiet_same (if is_current t (op_entry op) w
                       then write (op_entry op) (set_when now)
                              (write (op_entry op) (set_pending None) w)
                       else w)); [done | done |].
    destruct (is_current t (op_entry op) w); [| done].
    by repeat apply Quiet_write.
  - unfold resume. destruct thrown as [r|].
    + apply Quiet_settle_call; [| done]. by destruct r.
    + destruct (heap w !! cont_entry k); [| done].
      by apply Quiet_settle_call.
Qed.

Lemma Quiet_step ev w : Quiet w -> Quiet (step ev w).
Proof.
  intros Hq. destruct ev; cbn [step].
  - unfold ensureEntry. destruct (Tree.get _ _); cbn [fst].
    + by apply Quiet_write.
    + by apply Quiet_write, (Quiet_same w).
  - unfold invalidateEntry. destruct (Tree.find _ _); [| done].
    by apply Quiet_fold_invalidate.
  - unfold setEntryData. destruct (Tree.get _ _); [| done].
    apply Quiet_write. destruct d; by apply Quiet_write.
  - by apply Quiet_refetch.
  - by apply Quiet_refresh.
  - unfold settles. destruct (ops w !! t) as [op|]; [| done].
    destruct (op_stage op); try done.
    apply Quiet_enqueue; [by repeat constructor |]. by apply (Quiet_same w).
  - destruct (jobs w !! i) as [j|] eqn:Hj; [| done].
    destruct Hq as [Hcs Hjs]. apply Quiet_run_job.
    + rewrite Forall_lookup in Hjs. by apply (Hjs _ _ Hj).
    + split; [done |]. cbn. by apply Forall_delete.
Qed.

Lemma Quiet_run evs : forall w, Quiet w -> Quiet (run evs w).
Proof.
  induction evs as [|ev evs IH]; intros w Hq; [done |].
  cbn [run fold_left]. by apply IH, Quiet_step.
Qed.

(** ** C1: a superseded operation commits nothing *)

Lemma heap_await t k w : heap (await t k w) = heap w.
Proof.
  unfold await. destruct (ops w !! t) as [op|]; [| done].
  by destruct (op_stage op).
Qed.

Lemma heap_await_call q k w : heap (await_call q k w) = heap w.
Proof. unfold await_call. by destruct (calls w !! q) as [[ws|v|r]|]. Qed.

Lemma heap_settle_call q c w : heap (settle_call q c w) = heap w.
Proof. unfold settle_call. by destruct (calls w !! q) as [[ws|v|r]|]. Qed.

Lemma checked_options_Some fn en o :
  options en = Some o -> checked_options fn en = inr o.
Proof.
  intros Ho. unfold checked_options. rewrite Ho. cbn.
  by rewrite andb_false_r.
Qed.

Lemma checked_options_None fn en :
  options en = None ->
  checked_options fn en = inl (if production then TypeError else ConfigError fn).
Proof.
  intros Ho. unfold checked_options. rewrite Ho. cbn. by destruct production.
Qed.

Lemma alter_lookup_insert {A : Type} (f : A -> A) (l : list A) i x :
  l !! i = Some x -> alter f i l = <[i := f x]> l.
Proof.
  intros Hi. apply list_eq. intros j.
  rewrite list_lookup_alter, list_lookup_insert.
  pose proof (lookup_lt_Some _ _ _ Hi).
  destruct (decide (i = j)) as [->|Hne].
  - rewrite Hi. cbn. by rewrite decide_True.
  - by rewrite decide_False by (intros [? _]; done).
Qed.

Lemma alter_insert {A : Type} (f : A -> A) (l : list A) i x :
  alter f i (<[i := x]> l) = <[i := f x]> l.
Proof.
  revert i. induction l as [|y l IH]; intros [|i]; cbn; try done.
  f_equal. apply IH.
Qed.

(** [refetch] on an entry that has its options: the store when the call
    has reached its [await]. *)
Lemma refetch_started a now w en o :
  heap w !! a = Some en -> options en = Some o ->
  refetch a now w =
  ({| heap := <[a := set_pending
                       (Some {| refreshCall := length (ops w); pc_when := now |})
                       (set_status StLoading en)]> (heap w);
      entryRegistry := entryRegistry w;
      ops := ops w ++ [{| op_entry := a; op_stage := Running;
                          op_waiters := [KRefetch a (length (calls w))] |}];
      calls := calls w ++ [Awaiting []];
      jobs := jobs w;
      invocations := invocations w ++ [query o] |}, length (calls w)).
Proof.
  intros Ha Ho. unfold refetch. rewrite Ha, (checked_options_Some _ _ _ Ho).
  f_equal. unfold await, push_call, write.
  cbn [heap ops calls jobs invocations entryRegistry
       with_heap with_ops with_calls with_invocations].
  rewrite list_lookup_middle by done. cbn [op_stage op_entry op_waiters app].
  unfold with_ops; cbn [heap ops calls jobs invocations entryRegistry].
  f_equal.
  - rewrite (alter_lookup_insert _ _ _ _ Ha). by rewrite alter_insert.
  - replace (length (ops w)) with (length (ops w) + 0)%nat at 1 by lia.
    by rewrite insert_app_r.
Qed.

Lemma refetch_pending_token a now w en o :
  heap w !! a = Some en -> options en = Some o ->
  pending_token (refetch a now w).1 a = Some (length (ops w)).
Proof.
  intros Ha Ho. rewrite (refetch_started _ _ _ _ _ Ha Ho).
  unfold pending_token; cbn.
  rewrite list_lookup_insert_eq by (by eapply lookup_lt_Some). done.
Qed.

(** The reactions of a chain change the heap only when its descriptor is the
    one in [entry.pending]. *)
Lemma reactions_commit_only_if_current t s now w :
  heap (handler t s w) <> heap w \/ heap (finally t now w) <> heap w ->
  exists op, ops w !! t = Some op /\ is_current t (op_entry op) w = true.
Proof.
  unfold handler, finally.
  destruct (ops w !! t) as [op|]; [| intros [H|H]; destruct H; reflexivity].
  destruct (is_current t (op_entry op) w) eqn:Hcur; [intros _; by exists op |].
  intros [H|H]; destruct H; reflexivity.
Qed.

Lemma settles_heap t s w : heap (settles t s w) = heap w.
Proof.
  unfold settles. destruct (ops w !! t) as [op|]; [| done].
  by destruct (op_stage op).
Qed.

(** C1. Operation [A] (token [tA]) runs on the entry at [a]; [refetch] is
    called again on that entry (operation [B]) and anything may happen
    afterwards ([evs]). In the store reached, the settlement of [A]'s query,
    the reactions of [A]'s chain and the functions that go on after awaiting
    it leave every entry as it is, [data], [error], [status], [when] and
    [pending] included; a reaction changes an entry only if its descriptor is
    the current one of the entry; and no promise is rejected with the error of
    a query. *)
Theorem superseded_refetch_is_discarded
    (w : World) (a tA : nat) (opA : Op) (nowB : Z) (evs : list Event) :
  ops w !! tA = Some opA -> op_entry opA = a ->
  (exists en o, heap w !! a = Some en /\ options en = Some o) ->
  Quiet w ->
  let w' := run evs (refetch a nowB w).1 in
  (forall s now k thrown,
     heap (settles tA s w') = heap w' /\
     heap (handler tA s w') = heap w' /\
     heap (finally tA now w') = heap w' /\
     heap (resume k thrown w') = heap w') /\
  (forall t s now,
     heap (handler t s w') <> heap w' \/ heap (finally t now w') <> heap w' ->
     exists op, ops w' !! t = Some op /\ is_current t (op_entry op) w' = true) /\
  Quiet w'.
Proof.
  intros HA Hent (en & o & Ha & Ho) Hq w'.
  pose proof (extends_refetch a nowB w) as HextB.
  pose proof (extends_run evs (refetch a nowB w).1) as Hext. fold w' in Hext.
  pose proof (lookup_lt_Some _ _ _ HA) as HtA.
  assert (is_current tA a w' = false) as Hsup.
  { apply not_true_is_false. rewrite is_current_token.
    destruct Hext as (_ & _ & Hp). destruct HextB as (Hlen & _ & _).
    pose proof (refetch_pending_token a nowB w en o Ha Ho) as HB.
    destruct (Hp a) as [Heq|[Heq|(t & Heq & Hle)]]; rewrite Heq.
    - rewrite HB. intros [= ?]. lia.
    - done.
    - intros [= ?]. lia. }
  destruct (extends_trans _ _ _ HextB Hext) as (_ & Hops & _).
  destruct (Hops _ _ HA) as (op' & HA' & Hent').
  split_and!.
  - intros s now k thrown. split_and!.
    + apply settles_heap.
    + unfold handler. rewrite HA', Hent', Hent, Hsup. done.
    + unfold finally. rewrite HA', Hent', Hent, Hsup. done.
    + unfold resume. destruct thrown; [apply heap_settle_call |].
      destruct (heap w' !! cont_entry k); [apply heap_settle_call | done].
  - intros t s now. apply reactions_commit_only_if_current.
  - apply Quiet_run, Quiet_refetch, Hq.
Qed.

(** ** C8: an entry without options *)

(** C8, as the code has it. [refresh] and [refetch] are async functions: on an
    entry without options each returns a promise already rejected, with the
    configuration error where the build is not a production build and with
    the [TypeError] of reading the missing options where it is; the store is
    otherwise as it was, so nothing is stored in the entry. *)
Theorem refetch_refresh_without_options
    (w : World) (a : nat) (en : UseQueryEntry) (now : Z) :
  heap w !! a = Some en -> options en = None ->
  refetch a now w =
    (push_call (Rejected (if production then TypeError
                          else ConfigError "refetch")) w, length (calls w)) /\
  refresh a now w =
    (push_call (Rejected (if production then TypeError
                          else ConfigError "refresh")) w, length (calls w)) /\
  heap (refetch a now w).1 !! a = Some en /\
  heap (refresh a now w).1 !! a = Some en.
Proof.
  intros Ha Ho. unfold refetch, refresh.
  rewrite Ha, !(checked_options_None _ _ Ho). done.
Qed.

(** ** C5: when [refresh] fetches *)

Lemma isExpired_true now lastRefresh st :
  isExpired now lastRefresh st = true <-> now > lastRefresh + st.
Proof. unfold isExpired. apply bool_decide_eq_true. Qed.

(** The test of [refresh]: [entry.error.value || isExpired(entry.when,
    staleTime)], the first operand read for its truthiness. *)
Definition stale (en : UseQueryEntry) (o : Options) (now : Z) : Prop :=
  truthyError (error en) = true \/ now > when en + staleTime o.

Lemma stale_test en o now :
  truthyError (error en) || isExpired now (when en) (staleTime o) = true <->
  stale en o now.
Proof.
  unfold stale. rewrite orb_true_iff, isExpired_true. done.
Qed.


(** [refresh] on a stale entry with nothing in flight: the store when the
    call has reached its [await]. *)
Lemma refresh_started a now w en o :
  heap w !! a = Some en -> options en = Some o -> pending en = None ->
  stale en o now ->
  refresh a now w =
  ({| heap := <[a := set_pending
                       (Some {| refreshCall := length (ops w); pc_when := now |})
                       (set_status StLoading en)]> (heap w);
      entryRegistry := entryRegistry w;
      ops := ops w ++ [{| op_entry := a; op_stage := Running;
                          op_waiters := [KRefetch a (S (length (calls w)))] |}];
      calls := calls w ++ [Awaiting []; Awaiting [KRefresh a (length (calls w))]];
      jobs := jobs w;
      invocations := invocations w ++ [query o] |}, length (calls w)).
Proof.
  intros Ha Ho Hp Hst. unfold refresh.
  rewrite Ha, (checked_options_Some _ _ _ Ho), Hp.
  apply stale_test in Hst. rewrite Hst.
  rewrite (refetch_started a now (push_call (Awaiting []) w) en o Ha Ho).
  unfold await_call, push_call.
  cbn [heap ops calls jobs invocations entryRegistry with_calls].
  rewrite list_lookup_middle by done.
  unfold with_calls. cbn [heap ops calls jobs invocations entryRegistry].
  rewrite length_app. cbn [length]. rewrite Nat.add_1_r.
  do 2 f_equal.
  replace (S (length (calls w))) with (length (calls w ++ [Awaiting []]) + 0)%nat
    by (rewrite length_app; cbn; lia).
  rewrite insert_app_r. cbn. by rewrite <- app_assoc.
Qed.

(** [refresh] on a fresh entry returns at once. *)
Lemma refresh_fresh a now w en o :
  heap w !! a = Some en -> options en = Some o -> ~ stale en o now ->
  refresh a now w = (push_call (Fulfilled (data en)) w, length (calls w)).
Proof.
  intros Ha Ho Hst. unfold refresh.
  rewrite Ha, (checked_options_Some _ _ _ Ho).
  rewrite <- stale_test in Hst. apply not_true_is_false in Hst.
  by rewrite Hst.
Qed.


(** ** Scenarios: one operation and the calls that await it *)

Section ListAt.
Context {A : Type}.
Implicit Types (l : list A) (x y z : A).

Lemma lookup_at0 l l' x : (l ++ x :: l') !! length l = Some x.
Proof. by apply list_lookup_middle. Qed.

Lemma lookup_at1 l l' x y : (l ++ x :: y :: l') !! S (length l) = Some y.
Proof.
  rewrite (cons_middle x l), app_assoc.
  apply list_lookup_middle. rewrite length_app. cbn. lia.
Qed.

Lemma lookup_at2 l l' x y z :
  (l ++ x :: y :: z :: l') !! S (S (length l)) = Some z.
Proof.
  rewrite (cons_middle x l), app_assoc.
  rewrite <- (lookup_at1 (l ++ [x]) l' y z). f_equal.
  rewrite length_app. cbn. lia.
Qed.

Lemma insert_at0 l l' x x' : <[length l := x']> (l ++ x :: l') = l ++ x' :: l'.
Proof.
  replace (length l) with (length l + 0)%nat at 1 by lia.
  by rewrite insert_app_r.
Qed.

Lemma insert_at1 l l' x y y' :
  <[S (length l) := y']> (l ++ x :: y :: l') = l ++ x :: y' :: l'.
Proof.
  replace (S (length l)) with (length l + 1)%nat by lia.
  by rewrite insert_app_r.
Qed.

Lemma insert_at2 l l' x y z z' :
  <[S (S (length l)) := z']> (l ++ x :: y :: z :: l') = l ++ x :: y :: z' :: l'.
Proof.
  replace (S (S (length l))) with (length l + 2)%nat by lia.
  by rewrite insert_app_r.
Qed.

Lemma delete_at0 l l' x : delete (length l) (l ++ x :: l') = l ++ l'.
Proof. apply delete_middle. Qed.
End ListAt.

Lemma run_cons ev evs w : run (ev :: evs) w = run evs (step ev w).
Proof. reflexivity. Qed.

Lemma run_nil w : run [] w = w.
Proof. reflexivity. Qed.

(** What the [then] or the [catch] callback assigns. *)
Definition commit (s : Settlement) (en : UseQueryEntry) : UseQueryEntry :=
  match s with
  | Resolves d => set_status StSuccess (set_data (Some d) (set_error None en))
  | Rejects e => set_status StError (set_error (Some e) en)
  end.

(** [refresh] on a stale entry with an operation in flight awaits that
    operation. *)
Lemma refresh_joins a now w en o pc op :
  heap w !! a = Some en -> options en = Some o -> stale en o now ->
  pending en = Some pc -> ops w !! refreshCall pc = Some op ->
  op_stage op <> Done ->
  refresh a now w =
  (with_ops (<[refreshCall pc :=
                 {| op_entry := op_entry op; op_stage := op_stage op;
                    op_waiters := op_waiters op ++ [KRefresh a (length (calls w))] |}]>
               (ops w))
     (push_call (Awaiting []) w), length (calls w)).
Proof.
  intros Ha Ho Hst Hp Hop Hstage. unfold refresh.
  rewrite Ha, (checked_options_Some _ _ _ Ho), Hp.
  apply stale_test in Hst. rewrite Hst.
  unfold await. cbn [ops push_call with_calls]. rewrite Hop.
  by destruct (op_stage op).
Qed.

Lemma settles_running t s w op :
  ops w !! t = Some op -> op_stage op = Running ->
  settles t s w =
  enqueue [JHandler t s]
    (with_ops (<[t := {| op_entry := op_entry op; op_stage := Settling;
                         op_waiters := op_waiters op |}]> (ops w)) w).
Proof. intros Hop Hst. unfold settles. by rewrite Hop, Hst. Qed.

Lemma step_RunJob i now w j :
  jobs w !! i = Some j ->
  step (RunJob i now) w = run_job j now (with_jobs (delete i (jobs w)) w).
Proof. intros Hj. cbn [step]. by rewrite Hj. Qed.

Lemma handler_current t s w op en :
  ops w !! t = Some op -> heap w !! op_entry op = Some en ->
  refreshCall <$> pending en = Some t ->
  handler t s w =
  enqueue [JFinally t]
    (with_heap (<[op_entry op := commit s en]> (heap w)) w).
Proof.
  intros Hop Ha Hp. unfold handler. rewrite Hop.
  unfold is_current. rewrite Ha.
  destruct (pending en) as [pc|]; [| done]. injection Hp as Hp.
  rewrite bool_decide_true by done.
  f_equal. pose proof (lookup_lt_Some _ _ _ Ha) as Hlt.
  destruct s; unfold write, commit; cbn [heap with_heap];
    rewrite (alter_lookup_insert _ _ _ _ Ha); by rewrite !alter_insert.
Qed.

Lemma finally_current t now w op en :
  ops w !! t = Some op -> heap w !! op_entry op = Some en ->
  refreshCall <$> pending en = Some t ->
  finally t now w =
  enqueue (map (fun k => JResume k None) (op_waiters op))
    (with_ops (<[t := {| op_entry := op_entry op; op_stage := Done;
                         op_waiters := [] |}]> (ops w))
       (with_heap (<[op_entry op := set_when now (set_pending None en)]> (heap w))
          w)).
Proof.
  intros Hop Ha Hp. unfold finally. rewrite Hop.
  unfold is_current. rewrite Ha.
  destruct (pending en) as [pc|]; [| done]. injection Hp as Hp.
  rewrite bool_decide_true by done.
  f_equal. pose proof (lookup_lt_Some _ _ _ Ha) as Hlt.
  unfold write; cbn [heap ops with_heap]. unfold with_ops, with_heap.
  cbn [heap ops calls jobs invocations entryRegistry]. f_equal.
  rewrite (alter_lookup_insert _ _ _ _ Ha). by rewrite !alter_insert.
Qed.

Lemma resume_returns k w en ws :
  heap w !! cont_entry k = Some en ->
  calls w !! cont_call k = Some (Awaiting ws) ->
  resume k None w =
  enqueue (map (fun k' => JResume k' None) ws)
    (with_calls (<[cont_call k := Fulfilled (data en)]> (calls w)) w).
Proof. intros Ha Hc. unfold resume, settle_call. by rewrite Ha, Hc. Qed.

Lemma pending_commit s en : pending (commit s en) = pending en.
Proof. by destruct s. Qed.

Lemma options_commit s en : options (commit s en) = options en.
Proof. by destruct s. Qed.

Lemma when_commit s en : when (commit s en) = when en.
Proof. by destruct s. Qed.

Lemma data_commit s en :
  data (commit s en) = match s with Resolves d => Some d | Rejects _ => data en end.
Proof. by destruct s. Qed.

Ltac norm :=
  unfold enqueue, push_call;
  unfold with_heap, with_ops, with_calls, with_jobs, with_invocations,
    with_registry;
  cbn [fst snd heap ops calls jobs invocations entryRegistry
       op_entry op_stage op_waiters cont_entry cont_call refreshCall pc_when
       map app run_job];
  rewrite <- ?app_assoc; cbn [app];
  rewrite ?length_app; cbn [length];
  rewrite ?Nat.add_succ_r, ?Nat.add_0_r.

Ltac side Hlt :=
  norm; rewrite ?pending_commit;
  first [ apply lookup_at0 | apply lookup_at1 | apply lookup_at2
        | apply list_lookup_insert_eq; exact Hlt
        | reflexivity | done ].

(** The events of an operation that is the current one of its entry, one
    tactic an event: the query settles; the first job of the queue is the
    [then] or [catch] callback, the [finally] callback, the continuation of
    a call. *)
Ltac query_settles Hlt :=
  rewrite run_cons; cbn [step];
  erewrite settles_running; [| side Hlt | side Hlt];
  norm; rewrite insert_at0.

Ltac callback_runs Hlt :=
  rewrite run_cons; erewrite step_RunJob by side Hlt;
  norm; rewrite delete_at0, app_nil_r;
  erewrite handler_current; [| side Hlt | side Hlt | side Hlt];
  norm; rewrite list_insert_insert_eq.

Ltac finally_runs Hlt :=
  rewrite run_cons; erewrite step_RunJob by side Hlt;
  norm; rewrite delete_at0, app_nil_r;
  erewrite finally_current; [| side Hlt | side Hlt | side Hlt];
  norm; rewrite list_insert_insert_eq, insert_at0.

Ltac call_resumes Hlt :=
  rewrite run_cons; erewrite step_RunJob by side Hlt;
  norm; rewrite delete_at0, ?app_nil_r;
  erewrite resume_returns; [| side Hlt | side Hlt];
  norm; rewrite ?insert_at0, ?insert_at1, ?insert_at2.

(** The entry once [refetch] has started an operation on it. *)
Definition loading (t : nat) (now : Z) (en : UseQueryEntry) : UseQueryEntry :=
  set_pending (Some {| refreshCall := t; pc_when := now |})
    (set_status StLoading en).

(** The way of an operation to its end, after which [entry.pending] is
    [null] again: the query settles, the [then] or [catch] callback runs,
    the [finally] callback runs. *)
Definition completion (t : nat) (s : Settlement) (n : nat) (th tf : Z)
  : list Event :=
  [QuerySettles t s; RunJob n th; RunJob n tf].

(** [refresh] is called on a stale entry with nothing in flight and starts an
    operation; a second [refresh] is called on the entry, stale at that
    moment, before the query has settled ([k = 0]), before the [then] or
    [catch] callback has run ([k = 1]) or before the [finally] callback has
    run ([k = 2]); the operation goes to its end and the microtask queue is
    run: the store at the end. *)
Lemma two_refreshes_run (w : World) (a : nat) (en : UseQueryEntry) (o : Options)
    (t1 t2 th tf tr : Z) (s : Settlement) (k : nat) :
  heap w !! a = Some en -> options en = Some o -> pending en = None ->
  stale en o t1 -> (k <= 2)%nat ->
  let n := length (jobs w) in
  let w2 := run (take k (completion (length (ops w)) s n th tf))
              (refresh a t1 w).1 in
  (exists en2, heap w2 !! a = Some en2 /\ stale en2 o t2) ->
  let en' := set_when tf (set_pending None
               (commit s (loading (length (ops w)) t1 en))) in
  (refresh a t1 w).2 = length (calls w) /\
  (refresh a t2 w2).2 = S (S (length (calls w))) /\
  invocations (refresh a t2 w2).1 = invocations w ++ [query o] /\
  run (drop k (completion (length (ops w)) s n th tf)
       ++ [RunJob n tr; RunJob n tr; RunJob n tr])
      (refresh a t2 w2).1 =
  {| heap := <[a := en']> (heap w);
     entryRegistry := entryRegistry w;
     ops := ops w ++ [{| op_entry := a; op_stage := Done; op_waiters := [] |}];
     calls := calls w ++ [Fulfilled (data en'); Fulfilled (data en');
                          Fulfilled (data en')];
     jobs := jobs w;
     invocations := invocations w ++ [query o] |}.
Proof.
  intros Ha Ho Hp Hst Hk n w2 Hst2 en'. subst n w2 en'.
  pose proof (lookup_lt_Some _ _ _ Ha) as Hlt.
  unfold completion, loading in *.
  rewrite (refresh_started _ _ _ _ _ Ha Ho Hp Hst) in *.
  destruct k as [|[|[|k]]]; [| | | lia]; cbn [take drop firstn skipn app] in *.
  - (* before the query settles *)
    rewrite run_nil in Hst2 |- *. cbn [fst] in Hst2.
    destruct Hst2 as (en2 & Hen2 & Hst2). cbn [heap] in Hen2.
    rewrite list_lookup_insert_eq in Hen2 by done. injection Hen2 as <-.
    norm.
    erewrite refresh_joins;
      [| side Hlt | exact Ho | exact Hst2 | side Hlt | side Hlt | side Hlt ].
    norm. rewrite insert_at0. split_and!; [done | done | done |].
    query_settles Hlt.
    callback_runs Hlt.
    finally_runs Hlt.
    call_resumes Hlt.
    call_resumes Hlt.
    call_resumes Hlt. by rewrite app_nil_r.
  - (* after the query has settled, before the callback *)
    revert Hst2. norm.
    query_settles Hlt. rewrite !run_nil.
    intros (en2 & Hen2 & Hst2). cbn [heap] in Hen2.
    rewrite list_lookup_insert_eq in Hen2 by done. injection Hen2 as <-.
    erewrite refresh_joins;
      [| side Hlt | exact Ho | exact Hst2 | side Hlt | side Hlt | side Hlt ].
    norm. rewrite insert_at0. split_and!; [done | done | done |].
    callback_runs Hlt.
    finally_runs Hlt.
    call_resumes Hlt.
    call_resumes Hlt.
    call_resumes Hlt. by rewrite app_nil_r.
  - (* after the callback, before [finally] *)
    revert Hst2. norm.
    query_settles Hlt.
    callback_runs Hlt. rewrite !run_nil.
    intros (en2 & Hen2 & Hst2). cbn [heap] in Hen2.
    rewrite list_lookup_insert_eq in Hen2 by done. injection Hen2 as <-.
    erewrite refresh_joins;
      [| side Hlt | by rewrite options_commit | exact Hst2 | side Hlt
       | side Hlt | side Hlt ].
    norm. rewrite insert_at0. split_and!; [done | done | done |].
    finally_runs Hlt.
    call_resumes Hlt.
    call_resumes Hlt.
    call_resumes Hlt. by rewrite app_nil_r.
Qed.

(** C4, as the code has it. An entry with options and nothing in flight,
    whose stored error is truthy or which has expired when [refresh] is
    called at [t1]; [refresh] is called again at [t2] while the operation of
    the first call is in flight, at any moment of its way ([k] of the three
    events of [completion] have happened), and the entry has a truthy error
    or has expired at that moment too; the operation then goes to its end
    with any outcome [s] and the reactions run. The query function has been
    invoked exactly once. The outcome is stored on the entry, and the
    promises of the two calls are settled alike: both are fulfilled, with
    [entry.data.value], which is the resolved value when the query resolved
    and the data the entry had before when it rejected; neither promise is
    rejected. *)
Theorem concurrent_refresh_is_deduplicated
    (w : World) (a : nat) (en : UseQueryEntry) (o : Options)
    (t1 t2 th tf tr : Z) (s : Settlement) (k : nat) :
  heap w !! a = Some en -> options en = Some o -> pending en = None ->
  truthyError (error en) = true \/ t1 > when en + staleTime o ->
  (k <= 2)%nat ->
  let first := refresh a t1 w in
  let n := length (jobs w) in
  let w2 := run (take k (completion (length (ops w)) s n th tf)) first.1 in
  (exists en2, heap w2 !! a = Some en2 /\
     (truthyError (error en2) = true \/ t2 > when en2 + staleTime o)) ->
  let second := refresh a t2 w2 in
  let w' := run (drop k (completion (length (ops w)) s n th tf)
                 ++ [RunJob n tr; RunJob n tr; RunJob n tr]) second.1 in
  first.2 <> second.2 /\
  invocations second.1 = invocations w ++ [query o] /\
  invocations w' = invocations w ++ [query o] /\
  (exists en', heap w' !! a = Some en' /\ pending en' = None /\
     match s with
     | Resolves d =>
         data en' = Some d /\ error en' = None /\ status en' = StSuccess
     | Rejects e =>
         data en' = data en /\ error en' = Some e /\ status en' = StError
     end) /\
  (exists out, calls w' !! first.2 = Some out /\ calls w' !! second.2 = Some out /\
     out = Fulfilled match s with Resolves d => Some d | Rejects _ => data en end) /\
  (forall r, calls w' !! first.2 <> Some (Rejected r) /\
             calls w' !! second.2 <> Some (Rejected r)).
Proof.
  intros Ha Ho Hp Hst Hk first n w2 Hst2 second w'.
  subst first n w2 second w'.
  pose proof (lookup_lt_Some _ _ _ Ha) as Hlt.
  destruct (two_refreshes_run w a en o t1 t2 th tf tr s k Ha Ho Hp Hst Hk Hst2)
    as (-> & -> & Hinv & ->).
  cbn [heap calls invocations].
  split_and!; [lia | done | done | | |].
  - eexists. split; [by apply list_lookup_insert_eq |].
    by destruct s.
  - eexists. split_and!.
    + apply lookup_at0.
    + apply lookup_at2.
    + cbn [data set_when set_pending]. by rewrite data_commit.
  - intros r. by rewrite lookup_at0, lookup_at2.
Qed.

(** C3, as the code has it. [refetch] is called on an entry with options, a
    [refresh] call is made at any time [t1] while the operation is in flight
    (it joins the operation when the stored error is truthy or the entry has
    expired, and returns the data at once otherwise), and the query rejects
    with [e] while the operation is the current one. The entry then holds [e] in [error]
    with [status = 'error'], [data] is what it was, [pending] is cleared and
    [when] is the time of the [finally] callback; the [catch] callback has
    taken [e], so the promises of both calls are fulfilled, with
    [entry.data.value], and none is rejected. *)
Theorem rejected_query_is_stored_not_raised
    (w : World) (a : nat) (en : UseQueryEntry) (o : Options)
    (t0 t1 th tf tr : Z) (e : TError) :
  heap w !! a = Some en -> options en = Some o ->
  let first := refetch a t0 w in
  let second := refresh a t1 first.1 in
  let n := length (jobs w) in
  let w' := run [QuerySettles (length (ops w)) (Rejects e);
                 RunJob n th; RunJob n tf; RunJob n tr; RunJob n tr] second.1 in
  (exists en', heap w' !! a = Some en' /\
     error en' = Some e /\ status en' = StError /\ data en' = data en /\
     pending en' = None /\ when en' = tf) /\
  calls w' !! first.2 = Some (Fulfilled (data en)) /\
  calls w' !! second.2 = Some (Fulfilled (data en)) /\
  first.2 <> second.2.
Proof.
  intros Ha Ho first second n w'. subst first second n w'.
  pose proof (lookup_lt_Some _ _ _ Ha) as Hlt.
  rewrite (refetch_started _ _ _ _ _ Ha Ho). norm.
  destruct (decide (stale (loading (length (ops w)) t0 en) o t1))
    as [Hst1|Hfresh]; unfold loading in *.
  - (* the second call joins the operation *)
    erewrite refresh_joins;
      [| side Hlt | exact Ho | exact Hst1 | side Hlt | side Hlt | side Hlt ].
    norm. rewrite insert_at0.
    query_settles Hlt.
    callback_runs Hlt.
    finally_runs Hlt.
    call_resumes Hlt.
    call_resumes Hlt.
    cbn [run fold_left heap calls]. split_and!.
    + eexists. split; [by apply list_lookup_insert_eq | done].
    + apply lookup_at0.
    + apply lookup_at1.
    + lia.
  - (* the second call returns the data at once *)
    erewrite refresh_fresh; [| side Hlt | exact Ho | exact Hfresh].
    norm.
    query_settles Hlt.
    callback_runs Hlt.
    finally_runs Hlt.
    call_resumes Hlt.
    rewrite run_cons. cbn [step jobs]. rewrite app_nil_r.
    rewrite (lookup_ge_None_2 (jobs w) (length (jobs w))) by lia.
    cbn [run fold_left heap calls]. split_and!.
    + eexists. split; [by apply list_lookup_insert_eq | done].
    + apply lookup_at0.
    + apply lookup_at1.
    + lia.
Qed.

(** ** The key index: lookups *)

Lemma Tree_get_set_eq {T : Type} keys (v : T) : forall n,
  Tree.get keys (Tree.set keys v n) = Some v.
Proof.
  unfold Tree.get. induction keys as [|k ks IH]; intros n; [done |].
  cbn [Tree.set Tree.find Tree.node_children].
  rewrite JsMap_get_set_eq. apply IH.
Qed.

Lemma Tree_get_emptyNode {T : Type} keys : Tree.get keys (@Tree.emptyNode T) = None.
Proof. by destruct keys. Qed.

Lemma Tree_get_set_ne {T : Type} keys' (v : T) : forall keys n,
  keys <> keys' -> Tree.get keys (Tree.set keys' v n) = Tree.get keys n.
Proof.
  induction keys' as [|k' ks' IH]; intros keys n Hne.
  - destruct keys as [|k ks]; [done |]. by destruct n.
  - destruct keys as [|k ks]; [by destruct n |].
    unfold Tree.get. cbn [Tree.set Tree.find Tree.node_children].
    destruct (decide (k = k')) as [->|Hk].
    + rewrite JsMap_get_set_eq.
      assert (ks <> ks') as Hks by congruence.
      specialize (IH ks (default Tree.emptyNode
                           (JsMap.get k' (default [] (Tree.node_children n)))) Hks).
      unfold Tree.get in IH. rewrite IH.
      destruct (Tree.node_children n) as [cs|]; cbn [default from_option id].
      * destruct (JsMap.get k' cs); cbn [default from_option id];
          [reflexivity | exact (Tree_get_emptyNode ks)].
      * exact (Tree_get_emptyNode ks).
    + rewrite JsMap_get_set_ne by done.
      by destruct (Tree.node_children n).
Qed.

Lemma Tree_find_app {T : Type} ks1 ks2 : forall n : TreeMapNode T,
  Tree.find (ks1 ++ ks2) n =
  match Tree.find ks1 n with Some m => Tree.find ks2 m | None => None end.
Proof.
  induction ks1 as [|k ks1 IH]; intros n; [done |].
  cbn [app Tree.find]. destruct (Tree.node_children n) as [cs|]; [| done].
  destruct (JsMap.get k cs); [apply IH | done].
Qed.

Lemma Tree_values_value {T : Type} (n : TreeMapNode T) x :
  Tree.node_value n = Some x -> x ∈ Tree.values n.
Proof.
  destruct n as [v cs]. cbn. intros ->. apply elem_of_app. left.
  apply list_elem_of_singleton. done.
Qed.

Lemma Tree_values_child {T : Type} (v : option T) cs k c x :
  JsMap.get k cs = Some c -> x ∈ Tree.values c ->
  x ∈ Tree.values (MkNode v (Some cs)).
Proof.
  intros Hg Hx. cbn [Tree.values]. apply elem_of_app. right.
  apply list_elem_of_In, in_flat_map. exists (k, c). split.
  - apply list_elem_of_In. by apply JsMap_get_elem.
  - by apply list_elem_of_In.
Qed.

Lemma Tree_values_find {T : Type} ks : forall (n m : TreeMapNode T) x,
  Tree.find ks n = Some m -> x ∈ Tree.values m -> x ∈ Tree.values n.
Proof.
  induction ks as [|k ks IH]; intros n m x Hf Hx.
  - by injection Hf as ->.
  - cbn [Tree.find] in Hf. destruct n as [v [cs|]]; cbn in Hf; [| done].
    destruct (JsMap.get k cs) as [c|] eqn:Hg; [| done].
    eapply Tree_values_child; [exact Hg |]. by eapply IH.
Qed.

(** An entry stored at a key that extends [ks] is among the values that
    iterating the node found at [ks] yields. *)
Lemma Tree_values_prefix {T : Type} ks ks' (n m : TreeMapNode T) x :
  ks `prefix_of` ks' -> Tree.find ks n = Some m -> Tree.get ks' n = Some x ->
  x ∈ Tree.values m.
Proof.
  intros [rest ->] Hf Hg. unfold Tree.get in Hg.
  rewrite Tree_find_app, Hf in Hg.
  destruct (Tree.find rest m) as [m'|] eqn:Hr; [| done].
  eapply Tree_values_find; [exact Hr |]. by apply Tree_values_value.
Qed.

(** ** C10: options once attached stay *)

(** [w'] keeps what [w] has: a key that has an entry in the registry keeps
    it, and an entry that has options keeps them. *)
Definition keeps (w w' : World) : Prop :=
  (forall key a, Tree.get key (entryRegistry w) = Some a ->
                 Tree.get key (entryRegistry w') = Some a) /\
  (forall a en o, heap w !! a = Some en -> options en = Some o ->
     exists en', heap w' !! a = Some en' /\ options en' = Some o).

Lemma keeps_refl w : keeps w w.
Proof. split; eauto. Qed.

Lemma keeps_trans w1 w2 w3 : keeps w1 w2 -> keeps w2 w3 -> keeps w1 w3.
Proof.
  intros [Hr1 Ho1] [Hr2 Ho2]. split; [eauto |].
  intros a en o Ha Ho. destruct (Ho1 _ _ _ Ha Ho) as (en' & Ha' & Ho').
  eauto.
Qed.

Lemma keeps_same w w' :
  heap w' = heap w -> entryRegistry w' = entryRegistry w -> keeps w w'.
Proof. intros Hh Hr. unfold keeps. rewrite Hh, Hr. eauto. Qed.

Lemma keeps_enqueue js w w1 : keeps w w1 -> keeps w (enqueue js w1).
Proof. intros Hk. eapply keeps_trans; [exact Hk | by apply keeps_same]. Qed.

Lemma keeps_with_ops o w w1 : keeps w w1 -> keeps w (with_ops o w1).
Proof. intros Hk. eapply keeps_trans; [exact Hk | by apply keeps_same]. Qed.

Lemma keeps_write a f w :
  (forall en o, options en = Some o -> options (f en) = Some o) ->
  keeps w (write a f w).
Proof.
  intros Hf. split; [done |]. intros a' en o Ha Ho. cbn.
  rewrite list_lookup_alter. case_decide as Heq.
  - subst a'. rewrite Ha. eexists. split; [done |]. by apply Hf.
  - eauto.
Qed.

Lemma entryRegistry_await t k w : entryRegistry (await t k w) = entryRegistry w.
Proof.
  unfold await. destruct (ops w !! t) as [op|]; [| done].
  by destruct (op_stage op).
Qed.

Lemma keeps_await t k w : keeps w (await t k w).
Proof. apply keeps_same; [apply heap_await | apply entryRegistry_await]. Qed.

Lemma keeps_await_call q k w : keeps w (await_call q k w).
Proof.
  apply keeps_same; unfold await_call; by destruct (calls w !! q) as [[ws|v|r]|].
Qed.

Lemma keeps_settle_call q c w : keeps w (settle_call q c w).
Proof.
  apply keeps_same; unfold settle_call; by destruct (calls w !! q) as [[ws|v|r]|].
Qed.

Lemma keeps_refetch a now w : keeps w (refetch a now w).1.
Proof.
  unfold refetch. destruct (heap w !! a) as [en|]; [| by apply keeps_same].
  destruct (checked_options "refetch" en) as [x|o]; [by apply keeps_same |].
  cbn [fst]. eapply keeps_trans; [| apply keeps_await].
  apply (keeps_trans _ (write a (set_status StLoading) w));
    [by apply keeps_write |].
  apply (keeps_trans _
           (write a (set_pending (Some {| refreshCall := length (ops w);
                                          pc_when := now |}))
              (write a (set_status StLoading) w)));
    [by apply keeps_write | by apply keeps_same].
Qed.

Lemma keeps_refresh a now w : keeps w (refresh a now w).1.
Proof.
  unfold refresh. destruct (heap w !! a) as [en|]; [| by apply keeps_same].
  destruct (checked_options "refresh" en) as [x|o]; [by apply keeps_same |].
  destruct (truthyError (error en) || isExpired now (when en) (staleTime o));
    [| by apply keeps_same].
  destruct (pending en) as [pc|].
  - cbn [fst]. eapply keeps_trans; [| apply keeps_await]. by apply keeps_same.
  - destruct (refetch a now (push_call (Awaiting []) w)) as [w1 q] eqn:Hr.
    cbn [fst]. eapply keeps_trans; [| apply keeps_await_call].
    apply (keeps_trans _ (push_call (Awaiting []) w)); [by apply keeps_same |].
    pose proof (keeps_refetch a now (push_call (Awaiting []) w)) as Hk.
    by rewrite Hr in Hk.
Qed.

Lemma keeps_attach a o w :
  keeps w (write a (fun en => if negb (truthy (options en))
                              then set_options (Some o) en else en) w).
Proof. apply keeps_write. intros en o' Ho. by rewrite Ho. Qed.

Lemma keeps_ensureEntry keyRaw o w : keeps w (ensureEntry keyRaw o w).1.
Proof.
  unfold ensureEntry.
  destruct (Tree.get (map stringifyFlatObject keyRaw) (entryRegistry w))
    as [a|] eqn:Hget; cbn [fst]; [apply keeps_attach |].
  eapply keeps_trans; [| apply keeps_attach].
  split; cbn.
  - intros key a Hkey. rewrite Tree_get_set_ne; [done |]. congruence.
  - intros a en o' Ha Ho. exists en. split; [| done].
    by apply lookup_app_l_Some.
Qed.

Lemma keeps_invalidate_one shouldRefetch now w a :
  keeps w (invalidate_one shouldRefetch now w a).
Proof.
  unfold invalidate_one. destruct shouldRefetch; [| by apply keeps_write].
  eapply keeps_trans; [| apply keeps_refetch].
  apply (keeps_trans _ (write a (set_when 0) w)); by apply keeps_write.
Qed.

Lemma keeps_fold_invalidate shouldRefetch now l : forall w,
  keeps w (fold_left (invalidate_one shouldRefetch now) l w).
Proof.
  induction l as [|a l IH]; intros w; [apply keeps_refl |].
  cbn [fold_left]. eapply keeps_trans; [| apply IH].
  apply keeps_invalidate_one.
Qed.

Lemma keeps_run_job j now w : keeps w (run_job j now w).
Proof.
  destruct j as [t s|t|k thrown]; cbn [run_job].
  - unfold handler. destruct (ops w !! t) as [op|]; [| apply keeps_refl].
    apply keeps_enqueue.
    destruct (is_current t (op_entry op) w); [| apply keeps_refl].
    destruct s.
    + apply (keeps_trans _ (write (op_entry op) (set_error None) w));
        [by apply keeps_write |].
      eapply keeps_trans; [| by apply keeps_write]. by apply keeps_write.
    + eapply keeps_trans; [| by apply keeps_write]. by apply keeps_write.
  - unfold finally. destruct (ops w !! t) as [op|]; [| apply keeps_refl].
    apply keeps_enqueue, keeps_with_ops.
    destruct (is_current t (op_entry op) w); [| apply keeps_refl].
    eapply keeps_trans; [| by apply keeps_write]. by apply keeps_write.
  - unfold resume. destruct thrown; [apply keeps_settle_call |].
    destruct (heap w !! cont_entry k); [apply keeps_settle_call | apply keeps_refl].
Qed.

Lemma keeps_step ev w : keeps w (step ev w).
Proof.
  destruct ev; cbn [step].
  - apply keeps_ensureEntry.
  - unfold invalidateEntry. destruct (Tree.find _ _);
      [apply keeps_fold_invalidate | apply keeps_refl].
  - unfold setEntryData. destruct (Tree.get _ _); [| apply keeps_refl].
    eapply keeps_trans; [| by apply keeps_write].
    destruct d; by apply keeps_write.
  - apply keeps_refetch.
  - apply keeps_refresh.
  - unfold settles. destruct (ops w !! t) as [op|]; [| apply keeps_refl].
    destruct (op_stage op); try apply keeps_refl. by apply keeps_same.
  - destruct (jobs w !! i) as [j|]; [| apply keeps_refl].
    apply (keeps_trans _ (with_jobs (delete i (jobs w)) w));
      [by apply keeps_same | apply keeps_run_job].
Qed.

Lemma keeps_run evs : forall w, keeps w (run evs w).
Proof.
  induction evs as [|ev evs IH]; intros w; [apply keeps_refl |].
  cbn [run fold_left]. eapply keeps_trans; [apply keeps_step | apply IH].
Qed.

(** The first call for a key creates the entry and attaches the options. *)
Lemma ensureEntry_attaches keyRaw o w :
  Tree.get (map stringifyFlatObject keyRaw) (entryRegistry w) = None ->
  let r := ensureEntry keyRaw o w in
  Tree.get (map stringifyFlatObject keyRaw) (entryRegistry r.1) = Some r.2 /\
  exists en, heap r.1 !! r.2 = Some en /\ options en = Some o.
Proof.
  intros Hget. unfold ensureEntry. rewrite Hget. cbn. split.
  - apply Tree_get_set_eq.
  - rewrite list_lookup_alter_eq, lookup_at0. cbn. eauto.
Qed.

(** C10. Once the entry at a key has options [o0], then after anything that
    happens to the store ([evs]), [ensureEntry] for that key with any options
    [o] returns that entry and leaves the heap and the registry as they are,
    the entry still holding [o0]; and [ensureEntry], for any key, leaves the
    options of every entry that has some as they are. *)
Theorem ensureEntry_first_writer_wins
    (w : World) (keyRaw : list UseQueryKey) (a : nat) (en : UseQueryEntry)
    (o0 o : Options) (evs : list Event) :
  Tree.get (map stringifyFlatObject keyRaw) (entryRegistry w) = Some a ->
  heap w !! a = Some en -> options en = Some o0 ->
  let w' := run evs w in
  (ensureEntry keyRaw o w').2 = a /\
  heap (ensureEntry keyRaw o w').1 = heap w' /\
  entryRegistry (ensureEntry keyRaw o w').1 = entryRegistry w' /\
  (exists en', heap w' !! a = Some en' /\ options en' = Some o0) /\
  (forall w0 key0 o' a' en' o1,
     heap w0 !! a' = Some en' -> options en' = Some o1 ->
     exists en'', heap (ensureEntry key0 o' w0).1 !! a' = Some en'' /\
                  options en'' = Some o1).
Proof.
  intros Hget Ha Ho w'.
  destruct (keeps_run evs w) as [Hreg Hopt]. fold w' in Hreg, Hopt.
  specialize (Hreg _ _ Hget). destruct (Hopt _ _ _ Ha Ho) as (en' & Ha' & Ho').
  split_and!.
  - unfold ensureEntry. by rewrite Hreg.
  - unfold ensureEntry. rewrite Hreg. cbn.
    rewrite (alter_lookup_insert _ _ _ _ Ha'), Ho'. cbn.
    by apply list_insert_id.
  - unfold ensureEntry. by rewrite Hreg.
  - eauto.
  - intros w0 key0 o' a' en'' o1 Ha0 Ho1.
    destruct (keeps_ensureEntry key0 o' w0) as [_ Hk]. by eapply Hk.
Qed.

(** ** C9: invalidation reaches the descendants *)

(** What [invalidateEntry], called on the store [w0], has done to the entry
    at [a] in [w']: [when] is [0]; and where a refetch was asked for, the entry
    is loading and [entry.pending] is a descriptor made after [w0], whose
    chain is running for this entry - or, for an entry without options, whose
    [refetch] fails, [entry.pending] is left cleared. *)
Definition invalidated (shouldRefetch : bool) (w0 w' : World) (a : nat) : Prop :=
  exists en', heap w' !! a = Some en' /\ when en' = 0 /\
    (shouldRefetch = true ->
     match options en' with
     | Some o =>
         status en' = StLoading /\
         exists pc op, pending en' = Some pc /\
           (length (ops w0) <= refreshCall pc)%nat /\
           ops w' !! refreshCall pc = Some op /\
           op_entry op = a /\ op_stage op = Running
     | None => pending en' = None
     end).

Lemma refetch_rejected_heap a now w en :
  heap w !! a = Some en -> options en = None ->
  heap (refetch a now w).1 = heap w /\ ops (refetch a now w).1 = ops w.
Proof.
  intros Ha Ho. unfold refetch. by rewrite Ha, (checked_options_None _ _ Ho).
Qed.

(** One turn of the loop, on an entry of the heap. *)
Lemma invalidate_one_entry shouldRefetch now w a en :
  heap w !! a = Some en ->
  let w' := invalidate_one shouldRefetch now w a in
  exists en' new,
    heap w' = <[a := en']> (heap w) /\ ops w' = ops w ++ new /\
    when en' = 0 /\ options en' = options en /\
    (shouldRefetch = true ->
     match options en with
     | Some o =>
         status en' = StLoading /\
         pending en' = Some {| refreshCall := length (ops w); pc_when := now |} /\
         new = [{| op_entry := a; op_stage := Running;
                   op_waiters := [KRefetch a (length (calls w))] |}]
     | None => pending en' = None
     end).
Proof.
  intros Ha w'. subst w'. unfold invalidate_one.
  pose proof (lookup_lt_Some _ _ _ Ha) as Hlt.
  destruct shouldRefetch.
  - assert (heap (write a (set_pending None) (write a (set_when 0) w)) !! a
            = Some (set_pending None (set_when 0 en))) as Ha1.
    { cbn. rewrite !list_lookup_alter_eq, Ha. done. }
    assert (heap (write a (set_pending None) (write a (set_when 0) w))
            = <[a := set_pending None (set_when 0 en)]> (heap w)) as Hh.
    { cbn. rewrite (alter_lookup_insert _ _ _ _ Ha). by rewrite alter_insert. }
    destruct (options en) as [o|] eqn:Ho.
    + rewrite (refetch_started _ _ _ _ o Ha1) by done.
      cbn [fst heap ops]. rewrite Hh, list_insert_insert_eq.
      eexists _, _. split_and!; try done.
    + destruct (refetch_rejected_heap a now _ _ Ha1 Ho) as [-> ->].
      rewrite Hh. exists (set_pending None (set_when 0 en)), [].
      split_and!; try done. cbn. by rewrite app_nil_r.
  - exists (set_when 0 en), []. split_and!; try done.
    + cbn. by rewrite (alter_lookup_insert _ _ _ _ Ha).
    + cbn. by rewrite app_nil_r.
Qed.

(** A turn of the loop on a reference that is no entry of the heap. *)
Lemma invalidate_one_dangling shouldRefetch now w a :
  heap w !! a = None ->
  heap (invalidate_one shouldRefetch now w a) = heap w /\
  ops (invalidate_one shouldRefetch now w a) = ops w.
Proof.
  intros Ha. unfold invalidate_one.
  assert (forall f, alter f a (heap w) = heap w) as Halter.
  { intros f. apply list_eq. intros j. rewrite list_lookup_alter.
    case_decide; [subst; by rewrite Ha | done]. }
  destruct shouldRefetch; unfold write; cbn [heap ops with_heap];
    [| by rewrite Halter].
  unfold refetch. cbn [heap ops with_heap]. rewrite !Halter, Ha. done.
Qed.

Lemma invalidate_one_establishes shouldRefetch now w0 w a :
  is_Some (heap w !! a) -> (length (ops w0) <= length (ops w))%nat ->
  invalidated shouldRefetch w0 (invalidate_one shouldRefetch now w a) a.
Proof.
  intros [en Ha] Hlen.
  destruct (invalidate_one_entry shouldRefetch now w a en Ha)
    as (en' & new & Hh & Hops & Hw & Ho & Hsr).
  exists en'. rewrite Hh, Hops. split_and!.
  - apply list_lookup_insert_eq. by eapply lookup_lt_Some.
  - done.
  - intros Htrue. specialize (Hsr Htrue). rewrite Ho.
    destruct (options en) as [o|]; [| done].
    destruct Hsr as (Hst & Hp & ->). split; [done |].
    eexists _, _. split_and!; [exact Hp | done | apply lookup_at0 | done | done].
Qed.

Lemma invalidate_one_preserves shouldRefetch now w0 w a a' :
  a' <> a ->
  invalidated shouldRefetch w0 w a' ->
  invalidated shouldRefetch w0 (invalidate_one shouldRefetch now w a) a'.
Proof.
  intros Hne (en' & Ha' & Hw & Hsr).
  assert (heap (invalidate_one shouldRefetch now w a) !! a' = Some en' /\
          forall t op, ops w !! t = Some op ->
            ops (invalidate_one shouldRefetch now w a) !! t = Some op)
    as [Hheap Hops].
  { destruct (heap w !! a) as [en|] eqn:Ha.
    - destruct (invalidate_one_entry shouldRefetch now w a en Ha)
        as (en1 & new & -> & -> & _).
      split; [by rewrite list_lookup_insert_ne |].
      intros t op Ht. by apply lookup_app_l_Some.
    - destruct (invalidate_one_dangling shouldRefetch now w a Ha) as [-> ->].
      done. }
  exists en'. split_and!; [done | done |].
  intros Htrue. specialize (Hsr Htrue).
  destruct (options en') as [o|]; [| done].
  destruct Hsr as (Hst & pc & op & Hp & Hle & Hop & He & Hs).
  split; [done |]. exists pc, op. split_and!; try done. by apply Hops.
Qed.

Lemma invalidate_one_valid shouldRefetch now w a a' :
  is_Some (heap w !! a') ->
  is_Some (heap (invalidate_one shouldRefetch now w a) !! a') /\
  (length (ops w) <= length (ops (invalidate_one shouldRefetch now w a)))%nat.
Proof.
  intros Hv. destruct (heap w !! a) as [en|] eqn:Ha.
  - destruct (invalidate_one_entry shouldRefetch now w a en Ha)
      as (en1 & new & -> & -> & _). split.
    + apply lookup_lt_is_Some. rewrite length_insert.
      by apply lookup_lt_is_Some.
    + rewrite length_app. lia.
  - by destruct (invalidate_one_dangling shouldRefetch now w a Ha) as [-> ->].
Qed.

Lemma fold_invalidate_keeps shouldRefetch now w0 a l : forall w,
  is_Some (heap w !! a) -> (length (ops w0) <= length (ops w))%nat ->
  invalidated shouldRefetch w0 w a ->
  invalidated shouldRefetch w0
    (fold_left (invalidate_one shouldRefetch now) l w) a.
Proof.
  induction l as [|b l IH]; intros w Hv Hlen Hinv; [done |].
  cbn [fold_left].
  destruct (invalidate_one_valid shouldRefetch now w b a Hv) as [Hv' Hlen'].
  apply IH; [done | lia |].
  destruct (decide (a = b)) as [->|Hne].
  - by apply invalidate_one_establishes.
  - by apply invalidate_one_preserves.
Qed.

Lemma fold_invalidate_all shouldRefetch now w0 l : forall w a,
  a ∈ l -> is_Some (heap w !! a) -> (length (ops w0) <= length (ops w))%nat ->
  invalidated shouldRefetch w0
    (fold_left (invalidate_one shouldRefetch now) l w) a.
Proof.
  induction l as [|b l IH]; intros w a Hin Hv Hlen.
  - by apply elem_of_nil in Hin.
  - cbn [fold_left].
    destruct (invalidate_one_valid shouldRefetch now w b a Hv) as [Hv' Hlen'].
    destruct (decide (a = b)) as [->|Hne].
    + apply fold_invalidate_keeps; [done | lia |].
      by apply invalidate_one_establishes.
    + apply elem_of_cons in Hin as [?|Hin]; [done |].
      apply IH; [done | done | lia].
Qed.

(** C9. The key [K1] is a prefix of [K2] after normalization and both have an
    entry in the registry. [invalidateEntry(K1, shouldRefetch)] walks the
    node found at [K1]; the entries at [K1] and at [K2] are among those it
    yields, and every entry it yields has [when = 0] afterwards and, where
    [shouldRefetch] is set, has had its [pending] slot cleared and a refetch
    started on it: it is loading, with a descriptor made by this call whose
    chain is running ([refetch] fails on an entry without options, whose
    slot stays cleared). *)
Theorem invalidateEntry_reaches_descendants
    (w : World) (K1 K2 : list UseQueryKey) (a1 a2 : nat)
    (shouldRefetch : bool) (now : Z) :
  map stringifyFlatObject K1 `prefix_of` map stringifyFlatObject K2 ->
  Tree.get (map stringifyFlatObject K1) (entryRegistry w) = Some a1 ->
  Tree.get (map stringifyFlatObject K2) (entryRegistry w) = Some a2 ->
  let w' := invalidateEntry K1 shouldRefetch now w in
  exists entryNode,
    Tree.find (map stringifyFlatObject K1) (entryRegistry w) = Some entryNode /\
    a1 ∈ Tree.values entryNode /\ a2 ∈ Tree.values entryNode /\
    forall a, a ∈ Tree.values entryNode -> is_Some (heap w !! a) ->
              invalidated shouldRefetch w w' a.
Proof.
  intros Hpre H1 H2 w'. subst w'. unfold invalidateEntry.
  destruct (Tree.find (map stringifyFlatObject K1) (entryRegistry w))
    as [entryNode|] eqn:Hfind.
  - exists entryNode. split_and!; [done | | |].
    + by apply (Tree_values_prefix _ _ _ _ _ (reflexivity _) Hfind H1).
    + by apply (Tree_values_prefix _ _ _ _ _ Hpre Hfind H2).
    + intros a Hin Hv. by apply fold_invalidate_all.
  - unfold Tree.get in H1. by rewrite Hfind in H1.
Qed.

(** ** C7: status against data and error *)

(** The invariant of the spec: ['success'] has data, ['error'] has an
    error, ['pending'] has neither. *)
Definition status_agrees (en : UseQueryEntry) : Prop :=
  (status en = StSuccess -> data en <> None) /\
  (status en = StError -> error en <> None) /\
  (status en = StPending -> data en = None /\ error en = None).

Definition Agrees (w : World) : Prop := Forall status_agrees (heap w).

(** The entry [ensureEntry] creates: [createQueryEntry] with no error. *)
Lemma status_agrees_createQueryEntry initial when_ :
  status_agrees (createQueryEntry initial None when_).
Proof. by destruct initial. Qed.

Lemma status_agrees_commit s en : status_agrees (commit s en).
Proof. by destruct s. Qed.

Lemma Agrees_same w w' : heap w' = heap w -> Agrees w -> Agrees w'.
Proof. unfold Agrees. by intros ->. Qed.

Lemma Agrees_write a f w :
  (forall en, status_agrees en -> status_agrees (f en)) ->
  Agrees w -> Agrees (write a f w).
Proof. intros Hf Hw. apply Forall_alter; [done |]. intros en _. apply Hf. Qed.

Lemma Agrees_refetch a now w : Agrees w -> Agrees (refetch a now w).1.
Proof.
  intros Hw. unfold refetch. destruct (heap w !! a) as [en|]; [| done].
  destruct (checked_options "refetch" en) as [x|o]; [done |].
  cbn [fst]. apply (Agrees_same
    (write a (set_pending (Some {| refreshCall := length (ops w);
                                   pc_when := now |}))
       (write a (set_status StLoading) w))).
  - by rewrite heap_await.
  - apply Agrees_write; [by intros en0 (? & ? & ?) |].
    apply Agrees_write; [| done]. intros en0 _. by split_and!.
Qed.

Lemma Agrees_refresh a now w : Agrees w -> Agrees (refresh a now w).1.
Proof.
  intros Hw. unfold refresh. destruct (heap w !! a) as [en|]; [| done].
  destruct (checked_options "refresh" en) as [x|o]; [done |].
  destruct (truthyError (error en) || isExpired now (when en) (staleTime o));
    [| done].
  destruct (pending en) as [pc|].
  - cbn [fst]. apply (Agrees_same w); [| done]. by rewrite heap_await.
  - destruct (refetch a now (push_call (Awaiting []) w)) as [w1 q] eqn:Hr.
    cbn [fst]. apply (Agrees_same w1); [apply heap_await_call |].
    pose proof (Agrees_refetch a now (push_call (Awaiting []) w)) as Hk.
    rewrite Hr in Hk. by apply Hk.
Qed.

Lemma Agrees_fold_invalidate shouldRefetch now l : forall w,
  Agrees w -> Agrees (fold_left (invalidate_one shouldRefetch now) l w).
Proof.
  induction l as [|a l IH]; intros w Hw; [done |].
  cbn [fold_left]. apply IH. unfold invalidate_one.
  assert (Agrees (write a (set_when 0) w)) as Hw1.
  { apply Agrees_write; [| done]. by intros en0 (? & ? & ?). }
  destruct shouldRefetch; [| done].
  apply Agrees_refetch, Agrees_write; [| done]. by intros en0 (? & ? & ?).
Qed.

Lemma Agrees_run_job j now w : Agrees w -> Agrees (run_job j now w).
Proof.
  intros Hw. destruct j as [t s|t|k thrown]; cbn [run_job].
  - unfold handler. destruct (ops w !! t) as [op|]; [| done].
    destruct (is_current t (op_entry op) w); [| done].
    apply (Agrees_same (write (op_entry op) (commit s) w)).
    + destruct s; unfold write, commit; cbn [heap with_heap enqueue with_jobs];
        by rewrite !list_alter_alter_eq.
    + apply Agrees_write; [| done]. intros en _. apply status_agrees_commit.
  - unfold finally. destruct (ops w !! t) as [op|]; [| done].
    destruct (is_current t (op_entry op) w); [| done].
    apply (Agrees_same (write (op_entry op) (set_when now)
                          (write (op_entry op) (set_pending None) w)));
      [done |].
    apply Agrees_write; [by intros en0 (? & ? & ?) |].
    apply Agrees_write; [by intros en0 (? & ? & ?) | done].
  - unfold resume. destruct thrown as [r|].
    + apply (Agrees_same w); [apply heap_settle_call | done].
    + destruct (heap w !! cont_entry k); [| done].
      apply (Agrees_same w); [apply heap_settle_call | done].
Qed.

(** Every step but [setEntryData] keeps the invariant. *)
Lemma Agrees_step ev w :
  (forall key d, ev <> CallSetEntryData key d) -> Agrees w -> Agrees (step ev w).
Proof.
  intros Hev Hw. destruct ev; cbn [step].
  - unfold ensureEntry. destruct (Tree.get _ _); cbn [fst].
    + apply Agrees_write; [| done].
      intros en0 (? & ? & ?). by destruct (negb (truthy (options en0))).
    + apply Agrees_write.
      * intros en0 (? & ? & ?). by destruct (negb (truthy (options en0))).
      * unfold Agrees. cbn. apply Forall_app. split; [done |].
        constructor; [apply status_agrees_createQueryEntry | constructor].
  - unfold invalidateEntry. destruct (Tree.find _ _); [| done].
    by apply Agrees_fold_invalidate.
  - by destruct (Hev key d).
  - by apply Agrees_refetch.
  - by apply Agrees_refresh.
  - apply (Agrees_same w); [apply settles_heap | done].
  - destruct (jobs w !! i) as [j|]; [| done]. by apply Agrees_run_job.
Qed.

End QueryStore.

(** * The properties on concrete stores *)

(** Errors that are strings: the empty string is the falsy one. *)
#[global] Instance string_toBoolean : ToBoolean string :=
  fun s => match s with EmptyString => false | String _ _ => true end.

(** Keys whose segments are strings already. *)
Definition plainKey (k : string) : EntryNodeKey := k.

Definition optionsA : @Options string :=
  {| opt_key := ["a"]; query := 7%nat; staleTime := 100; initialData := None |}.

Definition optionsB : @Options string :=
  {| opt_key := ["a"; "b"]; query := 8%nat; staleTime := 50;
     initialData := Some "ab" |}.

(** A store with an entry at [["a"]] and one at [["a", "b"]]. *)
Definition storeAB : @World string string :=
  run plainKey false
    [CallEnsureEntry ["a"] optionsA; CallEnsureEntry ["a"; "b"] optionsB]
    emptyWorld.

(** An entry as hydration makes it, without options, alone in a heap. *)
Definition hydratedStore : @World string string :=
  {| heap := [createQueryEntry (Some "a") None (Some 100)];
     entryRegistry := Tree.emptyNode; ops := []; calls := []; jobs := [];
     invocations := [] |}.

(** An index with three entries, fetched at different times. *)
Definition indexABC : TreeMapNode (@UseQueryEntry string string) :=
  MkNode None
    (Some [("a", MkNode (Some (createQueryEntry (Some "a") None (Some 100)))
                   (Some [("b", MkNode (Some (createQueryEntry (Some "ab") None
                                                (Some 110))) None)]));
           ("d", MkNode (Some (createQueryEntry None (Some "boom") (Some 120)))
                   None)]).

(** C1 at a store: operation 0 is superseded by a second [refetch]; its query
    resolves late, the second one resolves and is committed. *)
Lemma superseded_refetch_is_discarded_witness :
  let w := (refetch false 0 1000 storeAB).1 in
  let w' := run plainKey false
              [QuerySettles 1 (Resolves "new"); RunJob 0 1010; RunJob 0 1011;
               QuerySettles 0 (Resolves "old")]
              (refetch false 0 1005 w).1 in
  (forall s now k thrown,
     heap (settles 0 s w') = heap w' /\
     heap (handler 0 s w') = heap w' /\
     heap (finally 0 now w') = heap w' /\
     heap (resume k thrown w') = heap w') /\
  (forall t s now,
     heap (handler t s w') <> heap w' \/ heap (finally t now w') <> heap w' ->
     exists op, ops w' !! t = Some op /\ is_current t (op_entry op) w' = true) /\
  Quiet w'.
Proof.
  apply (superseded_refetch_is_discarded plainKey false
           (refetch false 0 1000 storeAB).1 0 0
           {| op_entry := 0; op_stage := Running; op_waiters := [KRefetch 0 0] |}
           1005).
  - reflexivity.
  - reflexivity.
  - eexists _, _. split; reflexivity.
  - split; repeat constructor.
Defined.

(** C2 does not hold as stated: an entry fetched at 100 and serialized at 150
    has age 50, but the third component is 100; hydrated at 1000 its [when]
    is 100, not 950, and its age there is 900. *)
Lemma serialized_when_is_not_elapsed :
  let entry := @createQueryEntry string string _ (Some "a") None (Some 100) in
  let t1 := 150 in
  let t2 := 1000 in
  let value := queryEntry_toJSON entry in
  let hydrated := createQueryEntry_spread value in
  value.2 <> Some (t1 - when entry) /\
  when hydrated <> t2 - (t1 - when entry) /\
  t2 - when hydrated <> t1 - when entry.
Proof. cbn. split_and!; [discriminate | lia | lia]. Qed.

(** C3 does not hold as stated: the query rejects with ["boom"], the entry
    stores it, and the promise of the [refetch] call is fulfilled (with the
    entry's data, [undefined] here), not rejected. *)
Lemma refetch_promise_is_not_rejected :
  let first := refetch false 0 1000 storeAB in
  let w' := run plainKey false
              [QuerySettles 0 (Rejects "boom"); RunJob 0 1010; RunJob 0 1011;
               RunJob 0 1012]
              first.1 in
  (error <$> heap w' !! 0%nat) = Some (Some "boom") /\
  calls w' !! first.2 = Some (Fulfilled None) /\
  calls w' !! first.2 <> Some (Rejected (Raised "boom")).
Proof. vm_compute. split_and!; [reflexivity | reflexivity | discriminate]. Qed.

Lemma rejected_query_is_stored_not_raised_witness :
  let first := refetch false 0 1000 storeAB in
  let second := refresh false 0 1001 first.1 in
  let w' := run plainKey false
              [QuerySettles 0 (Rejects "boom"); RunJob 0 1010; RunJob 0 1011;
               RunJob 0 1012; RunJob 0 1012]
              second.1 in
  (exists en', heap w' !! 0%nat = Some en' /\
     error en' = Some "boom" /\ status en' = StError /\ data en' = None /\
     pending en' = None /\ when en' = 1011) /\
  calls w' !! first.2 = Some (Fulfilled None) /\
  calls w' !! second.2 = Some (Fulfilled None) /\
  first.2 <> second.2.
Proof.
  apply (rejected_query_is_stored_not_raised plainKey false storeAB 0
           (set_options (Some optionsA) (createQueryEntry None None None))
           optionsA 1000 1001 1010 1011 1012 "boom").
  - reflexivity.
  - reflexivity.
Defined.

(** C4 does not hold as stated: two [refresh] calls share one operation,
    its query rejects with ["boom"], the entry stores the error, and the two
    promises are fulfilled (with the entry's data, [undefined] here); neither
    caller gets the error. *)
Lemma joined_refresh_promises_are_not_rejected :
  let first := refresh false 0 1000 storeAB in
  let second := refresh false 0 1001 first.1 in
  let w' := run plainKey false
              [QuerySettles 0 (Rejects "boom"); RunJob 0 1010; RunJob 0 1011;
               RunJob 0 1012; RunJob 0 1012; RunJob 0 1012]
              second.1 in
  invocations w' = [7%nat] /\
  (error <$> heap w' !! 0%nat) = Some (Some "boom") /\
  calls w' !! first.2 = Some (Fulfilled None) /\
  calls w' !! second.2 = Some (Fulfilled None) /\
  calls w' !! first.2 <> Some (Rejected (Raised "boom")) /\
  calls w' !! second.2 <> Some (Rejected (Raised "boom")).
Proof.
  vm_compute.
  split_and!; [reflexivity | reflexivity | reflexivity | reflexivity
              | discriminate | discriminate].
Qed.

(** C4 at a store: the second [refresh] arrives when the query has settled
    and the [then] callback has not run yet. *)
Lemma concurrent_refresh_is_deduplicated_witness :
  let first := refresh false 0 1000 storeAB in
  let w2 := run plainKey false [QuerySettles 0 (Resolves "fresh")] first.1 in
  let second := refresh false 0 1001 w2 in
  let w' := run plainKey false
              [RunJob 0 1010; RunJob 0 1011;
               RunJob 0 1012; RunJob 0 1012; RunJob 0 1012]
              second.1 in
  first.2 <> second.2 /\
  invocations second.1 = [7%nat] /\
  invocations w' = [7%nat] /\
  (exists en', heap w' !! 0%nat = Some en' /\ pending en' = None /\
     data en' = Some "fresh" /\ error en' = None /\ status en' = StSuccess) /\
  (exists out, calls w' !! first.2 = Some out /\ calls w' !! second.2 = Some out /\
     out = Fulfilled (Some "fresh")) /\
  (forall r : @Exn string,
     calls w' !! first.2 <> Some (Rejected r) /\
     calls w' !! second.2 <> Some (Rejected r)).
Proof.
  apply (concurrent_refresh_is_deduplicated plainKey false storeAB 0
           (set_options (Some optionsA) (createQueryEntry None None None))
           optionsA 1000 1001 1010 1011 1012 (Resolves "fresh") 1).
  - reflexivity.
  - reflexivity.
  - reflexivity.
  - right. cbn. lia.
  - lia.
  - eexists. split; [reflexivity |]. right. cbn. lia.
Defined.



Lemma serialize_createTreeMap_serialize_witness :
  Tree.wf indexABC /\
  serialize (createTreeMap (serialize indexABC)) = serialize indexABC.
Proof.
  assert (Tree.wf indexABC) as Hwf.
  { cbn. split_and!; try done; repeat constructor; cbn;
      rewrite ?elem_of_cons, ?elem_of_nil; intuition discriminate. }
  split; [exact Hwf |].
  apply (serialize_createTreeMap_serialize indexABC Hwf).
Defined.

(** C7 fails on [setEntryData]: it assigns [data] and clears [error] and
    leaves [status] alone. On a new entry the status stays ['pending'] with
    data set; on an entry whose fetch failed it stays ['error'] with the
    error cleared. *)
Theorem setEntryData_breaks_status_invariant :
  let w1 := run plainKey false
              [CallEnsureEntry ["a"] optionsA;
               CallSetEntryData ["a"] (NewData "x")]
              (@emptyWorld string string) in
  let w2 := run plainKey false
              [CallEnsureEntry ["a"] optionsA; CallRefetch 0 1000;
               QuerySettles 0 (Rejects "boom"); RunJob 0 1001; RunJob 0 1002;
               RunJob 0 1003; CallSetEntryData ["a"] (NewData "x")]
              (@emptyWorld string string) in
  (exists en, heap w1 !! 0%nat = Some en /\
     status en = StPending /\ data en = Some "x" /\ ~ status_agrees en) /\
  (exists en, heap w2 !! 0%nat = Some en /\
     status en = StError /\ error en = None /\ ~ status_agrees en).
Proof.
  vm_compute. split; eexists; split_and!; try reflexivity.
  - intros (_ & _ & H). by destruct (H eq_refl).
  - intros (_ & H & _). by destruct (H eq_refl).
Qed.

(** C8 does not hold as stated: in a production build the guard is skipped,
    and what rejects the promise of [refetch] (and of [refresh]) is the
    [TypeError] of reading the missing options. *)
Lemma production_build_raises_TypeError :
  calls (refetch true 0 1000 hydratedStore).1 !! 0%nat
    = Some (Rejected TypeError) /\
  calls (refresh true 0 1000 hydratedStore).1 !! 0%nat
    = Some (Rejected TypeError) /\
  calls (refetch true 0 1000 hydratedStore).1 !! 0%nat
    <> Some (Rejected (ConfigError "refetch")) /\
  calls (refresh true 0 1000 hydratedStore).1 !! 0%nat
    <> Some (Rejected (ConfigError "refresh")).
Proof. vm_compute. split_and!; (reflexivity || discriminate). Qed.

Lemma refetch_refresh_without_options_witness :
  let en := @createQueryEntry string string _ (Some "a") None (Some 100) in
  refetch false 0 1000 hydratedStore =
    (push_call (Rejected (ConfigError "refetch")) hydratedStore, 0%nat) /\
  refresh false 0 1000 hydratedStore =
    (push_call (Rejected (ConfigError "refresh")) hydratedStore, 0%nat) /\
  heap (refetch false 0 1000 hydratedStore).1 !! 0%nat = Some en /\
  heap (refresh false 0 1000 hydratedStore).1 !! 0%nat = Some en.
Proof.
  apply (refetch_refresh_without_options false hydratedStore 0
           (createQueryEntry (Some "a") None (Some 100)) 1000); reflexivity.
Defined.

Lemma invalidateEntry_reaches_descendants_witness :
  let w' := invalidateEntry plainKey false ["a"] true 2000 storeAB in
  exists entryNode,
    Tree.find ["a"] (entryRegistry storeAB) = Some entryNode /\
    0%nat ∈ Tree.values entryNode /\ 1%nat ∈ Tree.values entryNode /\
    forall a, a ∈ Tree.values entryNode -> is_Some (heap storeAB !! a) ->
              invalidated true storeAB w' a.
Proof.
  apply (invalidateEntry_reaches_descendants plainKey false storeAB
           ["a"] ["a"; "b"] 0 1 true 2000).
  - exists ["b"]. reflexivity.
  - reflexivity.
  - reflexivity.
Defined.

Lemma ensureEntry_first_writer_wins_witness :
  let w' := run plainKey false
              [CallRefetch 0 1000; CallSetEntryData ["a"] (NewData "x");
               CallInvalidateEntry ["a"] true 1001] storeAB in
  (ensureEntry plainKey ["a"] optionsB w').2 = 0%nat /\
  heap (ensureEntry plainKey ["a"] optionsB w').1 = heap w' /\
  entryRegistry (ensureEntry plainKey ["a"] optionsB w').1 = entryRegistry w' /\
  (exists en', heap w' !! 0%nat = Some en' /\ options en' = Some optionsA) /\
  (forall (w0 : @World string string) key0 o' a' en' o1,
     heap w0 !! a' = Some en' -> options en' = Some o1 ->
     exists en'', heap (ensureEntry plainKey key0 o' w0).1 !! a' = Some en'' /\
                  options en'' = Some o1).
Proof.
  apply (ensureEntry_first_writer_wins plainKey false storeAB ["a"] 0
           (set_options (Some optionsA) (createQueryEntry None None None))
           optionsA optionsB); reflexivity.
Defined.
